(** * server.js: the presence and room-messaging engine

    A shallow embedding of the socket handlers of [server.js] (the admission
    middleware, the [connection], [send_message], [typing], [stop_typing]
    and [disconnect] handlers and [broadcastUserList]) over the three
    process-wide maps [users], [rooms] and [messageHistory], together with
    the part of socket.io the handlers talk to: the table of connected
    sockets and the adapter's room table used by [socket.join],
    [io.to(room)] and [socket.to(room)]. *)

From Stdlib Require Import ssreflect ZArith NArith String Ascii.
From stdpp Require Import base option list gmap sets pretty.

#[local] Set Warnings "-rewrite-rw,-clear-no-such-hyp".

Local Open Scope N_scope.
Local Open Scope nat_scope.

(** ** JavaScript strings

    A JavaScript string is a sequence of UTF-16 code units; [length] counts
    code units and [trim] strips the ECMAScript WhiteSpace and
    LineTerminator code points from both ends. *)

Abbreviation ustring := (list N).

(** The code units of an ASCII literal of the source. *)
Definition lit (s : string) : ustring :=
  map N_of_ascii (list_ascii_of_string s).

(** WhiteSpace and LineTerminator of ECMAScript: TAB, LF, VT, FF, CR, SP,
    NBSP, U+1680, U+2000..U+200A, U+2028, U+2029, U+202F, U+205F, U+3000
    and the byte order mark U+FEFF. *)
Definition is_ws (c : N) : bool :=
  ((9 <=? c) && (c <=? 13))%N
  || (c =? 32)%N || (c =? 160)%N || (c =? 5760)%N
  || ((8192 <=? c) && (c <=? 8202))%N
  || (c =? 8232)%N || (c =? 8233)%N || (c =? 8239)%N || (c =? 8287)%N
  || (c =? 12288)%N || (c =? 65279)%N.

Fixpoint trimStart (s : ustring) : ustring :=
  match s with
  | c :: s' => if is_ws c then trimStart s' else s
  | [] => []
  end.

Definition trimEnd (s : ustring) : ustring :=
  reverse (trimStart (reverse s)).

Definition trim (s : ustring) : ustring := trimEnd (trimStart s).

(** ** Values a client can put in a payload

    The handshake [auth] object and the [send_message] payload arrive as
    JSON.  Strings are kept as they are; any other value (a number, a
    boolean, an object, an array) is known by the two things the handlers
    ask of it: its truthiness and its [String(...)] image.  Such a value has
    no [trim] method. *)
Inductive jsval :=
  | JUndefined
  | JNull
  | JStr (s : ustring)
  | JOther (truthy : bool) (shown : ustring).

Definition truthy (v : jsval) : bool :=
  match v with
  | JUndefined | JNull => false
  | JStr s => bool_decide (s ≠ [])
  | JOther b _ => b
  end.

(** [a || b] *)
Definition js_or (a b : jsval) : jsval := if truthy a then a else b.

(** [String(v)] *)
Definition String_ (v : jsval) : ustring :=
  match v with
  | JUndefined => lit "undefined"
  | JNull => lit "null"
  | JStr s => s
  | JOther _ shown => shown
  end.

(** ** The admission middleware, [io.use] *)

Inductive admission_result :=
  | Accepted (username room : ustring)
  | Rejected (message : string)
  | AdmissionThrew.

(** [room.trim()]: a TypeError unless [room] is a string. *)
Definition trim_method (v : jsval) : option ustring :=
  match v with
  | JStr s => Some (trim s)
  | _ => None
  end.

Definition admission (auth_username auth_room : jsval) : admission_result :=
  let username := auth_username in
  let room := js_or auth_room (JStr (lit "general")) in
  if negb (truthy username) then Rejected "Invalid username"
  else
    match username with
    | JStr s =>
      if length (trim s) =? 0 then Rejected "Invalid username"
      else if 50 <? length s then Rejected "Username too long"
      else
        match trim_method room with
        | Some r => Accepted (trim s) r
        | None => AdmissionThrew
        end
    | _ => AdmissionThrew (* username.trim is not a function *)
    end.

(** ** Records of the engine *)

Module User.
Record t := mk { username : ustring; room : ustring; joinedAt : Z }.
End User.

Module Message.
Record t := mk {
  id : ustring;
  username : ustring;
  message : ustring;
  timestamp : Z;
  room : ustring
}.
End Message.

(** The socket object as the handlers read it: the transport's [id] and the
    two properties the middleware sets. *)
Module Socket.
Record t := mk { id : ustring; username : ustring; room : ustring }.
End Socket.

(** An entry of the [user_list] payload. *)
Module Entry.
Record t := mk { username : ustring; joinedAt : Z }.
End Entry.

(** ** Outbound events *)

Inductive target :=
  | ToSocket (id : ustring)                  (* socket.emit *)
  | ToRoom (room : ustring)                  (* io.to(room).emit *)
  | ToRoomExcept (room : ustring) (id : ustring). (* socket.to(room).emit *)

Inductive payload_out :=
  | message_history (history : list Message.t)
  | user_joined (username : ustring) (timestamp : Z) (userCount : nat)
  | user_list (userList : list Entry.t)
  | new_message (messageData : Message.t)
  | user_typing (username : ustring)
  | user_stop_typing (username : ustring)
  | user_left (username : ustring) (timestamp : Z) (userCount : nat)
  | error (message : string).

(** One [emit] call: where it was addressed, the sockets that were in that
    address when the call was made, and what was sent. *)
Record emission := Emission {
  em_target : target;
  em_recipients : gset ustring;
  em_payload : payload_out
}.

(** ** The state

    [users], [rooms] and [messageHistory] are the three [Map]s of the
    source.  A [Set] of socket ids is the list of its elements in insertion
    order, which is the order [forEach] visits.  [sockets] and [adapter]
    belong to socket.io: the connected sockets, and for every room name the
    ids of the sockets that joined it. *)
Record world := World {
  users : gmap ustring User.t;
  rooms : gmap ustring (list ustring);
  messageHistory : gmap ustring (list Message.t);
  sockets : gmap ustring Socket.t;
  adapter : gmap ustring (gset ustring)
}.

Definition init : world := World ∅ ∅ ∅ ∅ ∅.

Definition set_users (f : gmap ustring User.t → gmap ustring User.t)
    (w : world) : world :=
  World (f (users w)) (rooms w) (messageHistory w) (sockets w) (adapter w).

Definition set_rooms
    (f : gmap ustring (list ustring) → gmap ustring (list ustring))
    (w : world) : world :=
  World (users w) (f (rooms w)) (messageHistory w) (sockets w) (adapter w).

Definition set_messageHistory
    (f : gmap ustring (list Message.t) → gmap ustring (list Message.t))
    (w : world) : world :=
  World (users w) (rooms w) (f (messageHistory w)) (sockets w) (adapter w).

Definition set_sockets
    (f : gmap ustring Socket.t → gmap ustring Socket.t) (w : world) : world :=
  World (users w) (rooms w) (messageHistory w) (f (sockets w)) (adapter w).

Definition set_adapter
    (f : gmap ustring (gset ustring) → gmap ustring (gset ustring))
    (w : world) : world :=
  World (users w) (rooms w) (messageHistory w) (sockets w) (f (adapter w)).

(** [Set.prototype.add], [delete] and [size]. *)
Definition set_add (x : ustring) (l : list ustring) : list ustring :=
  if bool_decide (x ∈ l) then l else l ++ [x].

Definition set_delete (x : ustring) (l : list ustring) : list ustring :=
  filter (λ y, y ≠ x) l.

(** [Array.prototype.push], [shift] and [slice(-n)]. *)
Definition push {A} (a : list A) (x : A) : list A := a ++ [x].
Definition shift {A} (a : list A) : list A := tail a.
Definition slice_last {A} (n : nat) (a : list A) : list A :=
  drop (length a - n) a.

(** The sockets in a room of the adapter. *)
Definition in_room (w : world) (room : ustring) : gset ustring :=
  default ∅ (adapter w !! room).

Definition resolve (w : world) (t : target) : gset ustring :=
  match t with
  | ToSocket id => {[ id ]}
  | ToRoom room => in_room w room
  | ToRoomExcept room id => in_room w room ∖ {[ id ]}
  end.

(** ** Handlers as state transformers

    A handler reads and writes the state, emits events, and may throw. *)
Inductive outcome (A : Type) :=
  | Ok (a : A) (w : world) (out : list emission)
  | Threw (w : world) (out : list emission).
Arguments Ok {A} a w out.
Arguments Threw {A} w out.

Definition M (A : Type) : Type := world → outcome A.

#[global] Instance M_ret : MRet M := λ A a w, Ok a w [].

#[global] Instance M_bind : MBind M := λ A B k m w,
  match m w with
  | Ok a w1 out1 =>
    match k a w1 with
    | Ok b w2 out2 => Ok b w2 (out1 ++ out2)
    | Threw w2 out2 => Threw w2 (out1 ++ out2)
    end
  | Threw w1 out1 => Threw w1 out1
  end.

Definition throw {A} : M A := λ w, Threw w [].

Definition try_catch (body handler : M unit) : M unit := λ w,
  match body w with
  | Ok a w1 out1 => Ok a w1 out1
  | Threw w1 out1 =>
    match handler w1 with
    | Ok a w2 out2 => Ok a w2 (out1 ++ out2)
    | Threw w2 out2 => Threw w2 (out1 ++ out2)
    end
  end.

Definition gets {A} (f : world → A) : M A := λ w, Ok (f w) w [].
Definition modify (f : world → world) : M unit := λ w, Ok tt (f w) [].

Definition emit (t : target) (p : payload_out) : M unit := λ w,
  Ok tt w [Emission t (resolve w t) p].

(** A method call or property read on [v]: a TypeError when [v] is
    [undefined]. *)
Definition defined {A} (v : option A) : M A :=
  match v with
  | Some a => mret a
  | None => throw
  end.

Definition when (b : bool) (m : M unit) : M unit :=
  if b then m else mret tt.

Definition isSome {A} (o : option A) : bool :=
  match o with Some _ => true | None => false end.

(** ** [broadcastUserList] *)
Definition broadcastUserList (room : ustring) : M unit :=
  members ← gets (λ w, rooms w !! room);
  userList ←
    match members with
    | Some members =>
      gets (λ w,
        foldl (λ userList socketId,
          match users w !! socketId with
          | Some user =>
            push userList (Entry.mk (User.username user) (User.joinedAt user))
          | None => userList
          end) [] members)
    | None => mret []
    end;
  emit (ToRoom room) (user_list userList).

(** [socket.join(room)] on the adapter. *)
Definition adapter_join (id room : ustring)
    (a : gmap ustring (gset ustring)) : gmap ustring (gset ustring) :=
  <[room := {[ id ]} ∪ default ∅ (a !! room)]> a.

(** What the adapter does when a socket closes: it leaves every room. *)
Definition adapter_leave_all (id : ustring)
    (a : gmap ustring (gset ustring)) : gmap ustring (gset ustring) :=
  (λ s, s ∖ {[ id ]}) <$> a.

(** ** [io.on('connection')]; [now1] and [now2] are the two readings of
    [Date.now()]. *)
Definition connection (socket : Socket.t) (now1 now2 : Z) : M unit :=
  let id := Socket.id socket in
  let room := Socket.room socket in
  modify (set_users <[id := User.mk (Socket.username socket) room now1]>) ;;
  modify (set_adapter (adapter_join id room)) ;;
  has ← gets (λ w, isSome (rooms w !! room));
  when (negb has)
    (modify (set_rooms <[room := []]>) ;;
     modify (set_messageHistory <[room := []]>)) ;;
  members ← gets (λ w, rooms w !! room) ≫= defined;
  modify (set_rooms <[room := set_add id members]>) ;;
  history ← gets (λ w, default [] (messageHistory w !! room));
  emit (ToSocket id) (message_history (slice_last 50 history)) ;;
  members ← gets (λ w, rooms w !! room) ≫= defined;
  emit (ToRoomExcept room id)
    (user_joined (Socket.username socket) now2 (length members)) ;;
  broadcastUserList room.

(** ** [socket.on('send_message')]

    The payload as far as the handler reads it: [data.message] throws when
    [data] is [undefined] or [null]; for any other [data] it is a value,
    [undefined] when there is no such property. *)
Inductive payload :=
  | PNullish
  | PValue (message : jsval).

Definition payload_message (data : payload) : option jsval :=
  match data with
  | PNullish => None
  | PValue v => Some v
  end.

(** The template literal [`${socket.id}-${Date.now()}`]. *)
Definition message_id (id : ustring) (now : Z) : ustring :=
  id ++ lit "-" ++ lit (pretty now).

Definition send_message (socket : Socket.t) (data : payload)
    (now1 now2 : Z) : M unit :=
  let id := Socket.id socket in
  let room := Socket.room socket in
  try_catch
    (field ← defined (payload_message data);
     let message := trim (String_ (js_or field (JStr []))) in
     if negb (truthy (JStr message)) || (length message =? 0) then mret tt
     else if 1000 <? length message then
       emit (ToSocket id) (error "Message too long")
     else
       let messageData :=
         Message.mk (message_id id now1) (Socket.username socket)
                    message now2 room in
       history ← gets (λ w, messageHistory w !! room) ≫= defined;
       let history := push history messageData in
       modify (set_messageHistory <[room := history]>) ;;
       when (100 <? length history)
         (modify (set_messageHistory <[room := shift history]>)) ;;
       emit (ToRoom room) (new_message messageData))
    (emit (ToSocket id) (error "Failed to send message")).

(** ** [typing] and [stop_typing] *)
Definition typing (socket : Socket.t) : M unit :=
  emit (ToRoomExcept (Socket.room socket) (Socket.id socket))
       (user_typing (Socket.username socket)).

Definition stop_typing (socket : Socket.t) : M unit :=
  emit (ToRoomExcept (Socket.room socket) (Socket.id socket))
       (user_stop_typing (Socket.username socket)).

(** ** [socket.on('disconnect')] *)
Definition disconnect (socket : Socket.t) (now : Z) : M unit :=
  let id := Socket.id socket in
  user ← gets (λ w, users w !! id);
  match user with
  | Some user =>
    let room := User.room user in
    has ← gets (λ w, isSome (rooms w !! room));
    when has
      (members ← gets (λ w, rooms w !! room) ≫= defined;
       modify (set_rooms <[room := set_delete id members]>) ;;
       members ← gets (λ w, rooms w !! room) ≫= defined;
       when (length members =? 0)
         (modify (set_rooms (delete room)) ;;
          modify (set_messageHistory (delete room)))) ;;
    members ← gets (λ w, rooms w !! room);
    emit (ToRoomExcept room id)
      (user_left (User.username user) now
         (match members with Some members => length members | None => 0 end)) ;;
    broadcastUserList room
  | None => mret tt
  end ;;
  modify (set_users (delete id)).

(** ** Events delivered by the transport *)

Inductive event :=
  | Connect (id : ustring) (auth_username auth_room : jsval) (now1 now2 : Z)
  | SendMessage (id : ustring) (data : payload) (now1 now2 : Z)
  | Typing (id : ustring)
  | StopTyping (id : ustring)
  | Disconnect (id : ustring) (now : Z).

(** A handler that runs to completion; an exception that escapes a handler
    is outside the model. *)
Definition completed (r : outcome unit) : option (world * list emission) :=
  match r with
  | Ok _ w out => Some (w, out)
  | Threw _ _ => None
  end.

(** One event.  The transport gives a new connection an id no connected
    socket has, puts the socket in the room named by its own id, runs the
    middleware and, when it calls [next()], the connection handler.  Message
    and typing events come from connected sockets only.  On a close the
    socket has left all its rooms before [disconnect] is emitted. *)
Definition step (w : world) (e : event) : option (world * list emission) :=
  match e with
  | Connect id auth_username auth_room now1 now2 =>
    match sockets w !! id with
    | Some _ => None
    | None =>
      match admission auth_username auth_room with
      | Accepted username room =>
        let socket := Socket.mk id username room in
        completed (connection socket now1 now2
          (set_adapter (adapter_join id id)
            (set_sockets <[id := socket]> w)))
      | Rejected _ => Some (w, [])
      | AdmissionThrew => None
      end
    end
  | SendMessage id data now1 now2 =>
    socket ← sockets w !! id;
    completed (send_message socket data now1 now2 w)
  | Typing id =>
    socket ← sockets w !! id; completed (typing socket w)
  | StopTyping id =>
    socket ← sockets w !! id; completed (stop_typing socket w)
  | Disconnect id now =>
    socket ← sockets w !! id;
    completed (disconnect socket now
      (set_adapter (adapter_leave_all id) (set_sockets (delete id) w)))
  end.

Fixpoint run (w : world) (es : list event)
    : option (world * list emission) :=
  match es with
  | [] => Some (w, [])
  | e :: es =>
    match step w e with
    | Some (w1, out1) =>
      match run w1 es with
      | Some (w2, out2) => Some (w2, out1 ++ out2)
      | None => None
      end
    | None => None
    end
  end.

Inductive reachable : world → Prop :=
  | reachable_init : reachable init
  | reachable_step w e w' out :
      reachable w → step w e = Some (w', out) → reachable w'.

Definition memberCount (w : world) (room : ustring) : nat :=
  match rooms w !! room with
  | Some members => length members
  | None => 0
  end.

(** * Notions used by the statements *)

(** ** Text *)

Definition starts_ws (s : ustring) : bool :=
  match s with
  | c :: _ => is_ws c
  | [] => false
  end.

Definition ends_ws (s : ustring) : bool := starts_ws (reverse s).

(** The text a [send_message] payload field stands for: line 103. *)
Definition body_of (field : jsval) : ustring :=
  trim (String_ (js_or field (JStr []))).

(** The room the middleware settles on: lines 51 and 62. *)
Definition normalized_room (auth_room : jsval) : option ustring :=
  trim_method (js_or auth_room (JStr (lit "general"))).

(** A handshake value on which [trim] can be called once the default has
    been applied: anything but a truthy value that is not a string. *)
Definition string_or_falsy (v : jsval) : Prop :=
  match v with
  | JOther true _ => False
  | _ => True
  end.

(** ** Messages and the ring *)

(** The [messageData] object of lines 111 to 117. *)
Definition message_of (socket : Socket.t) (field : jsval) (now1 now2 : Z)
    : Message.t :=
  Message.mk (message_id (Socket.id socket) now1) (Socket.username socket)
             (body_of field) now2 (Socket.room socket).

(** Lines 121 to 124 on the array itself. *)
Definition appended (history : list Message.t) (m : Message.t)
    : list Message.t :=
  let history := push history m in
  if 100 <? length history then shift history else history.

(** An event addressed to the socket itself. *)
Definition to_sender (socket : Socket.t) (p : payload_out) : emission :=
  Emission (ToSocket (Socket.id socket)) {[ Socket.id socket ]} p.

(** ** Rooms and rosters *)

Definition members (w : world) (room : ustring) : list ustring :=
  default [] (rooms w !! room).

Definition entry_of (user : User.t) : Entry.t :=
  Entry.mk (User.username user) (User.joinedAt user).

(** The list [broadcastUserList] builds for a room. *)
Definition roster (w : world) (room : ustring) : list Entry.t :=
  match rooms w !! room with
  | Some members => omap (λ socketId, entry_of <$> users w !! socketId) members
  | None => []
  end.

(** Every member of the room has exactly one entry, in the order of the
    member set. *)
Definition listed (w : world) (room : ustring) : Prop :=
  NoDup (members w room)
  ∧ Forall2 (λ id entry,
               ∃ user, users w !! id = Some user ∧ User.room user = room
                       ∧ entry = entry_of user)
            (members w room) (roster w room).

(** ** The states the handlers leave *)

(** The world the connection handler starts from, and the one the
    disconnect handler starts from. *)
Definition opened (socket : Socket.t) (w : world) : world :=
  set_adapter (adapter_join (Socket.id socket) (Socket.id socket))
    (set_sockets <[Socket.id socket := socket]> w).

Definition closed (id : ustring) (w : world) : world :=
  set_adapter (adapter_leave_all id) (set_sockets (delete id) w).

(** The state [connection] leaves. *)
Definition after_join (socket : Socket.t) (now1 : Z) (w : world) : world :=
  let id := Socket.id socket in
  let room := Socket.room socket in
  World (<[id := User.mk (Socket.username socket) room now1]> (users w))
        (<[room := set_add id (default [] (rooms w !! room))]> (rooms w))
        (match rooms w !! room with
         | Some _ => messageHistory w
         | None => <[room := []]> (messageHistory w)
         end)
        (sockets w)
        (adapter_join id room (adapter w)).

(** The state lines 157 to 163 leave. *)
Definition left_room (id room : ustring) (w : world) : world :=
  match rooms w !! room with
  | Some members =>
    if length (set_delete id members) =? 0 then
      set_messageHistory (delete room) (set_rooms (delete room) w)
    else set_rooms <[room := set_delete id members]> w
  | None => w
  end.

(** The state [disconnect] leaves for a socket whose record names [room]. *)
Definition after_leave (id room : ustring) (w : world) : world :=
  set_users (delete id) (left_room id room (closed id w)).

(** ** What holds between two events *)

Record consistent (w : world) : Prop := Consistent {
  inv_history : ∀ r, is_Some (messageHistory w !! r) ↔ is_Some (rooms w !! r);
  inv_nonempty : ∀ r l, rooms w !! r = Some l → l ≠ [];
  inv_nodup : ∀ r l, rooms w !! r = Some l → NoDup l;
  inv_member : ∀ r l i, rooms w !! r = Some l → i ∈ l →
    ∃ u, users w !! i = Some u ∧ User.room u = r;
  inv_user : ∀ i u, users w !! i = Some u →
    ∃ l, rooms w !! User.room u = Some l ∧ i ∈ l;
  inv_socket : ∀ i s, sockets w !! i = Some s →
    Socket.id s = i ∧
    ∃ u, users w !! i = Some u ∧ User.room u = Socket.room s
         ∧ User.username u = Socket.username s;
  inv_user_socket : ∀ i u, users w !! i = Some u → is_Some (sockets w !! i);
  inv_adapter : ∀ i s, sockets w !! i = Some s → i ∈ in_room w (Socket.room s);
  inv_ring : ∀ r h, messageHistory w !! r = Some h → length h ≤ 100
}.

(** The event is a connection that the middleware lets into [room]. *)
Definition joins (e : event) (room : ustring) : Prop :=
  match e with
  | Connect _ auth_username auth_room _ _ =>
    ∃ username, admission auth_username auth_room = Accepted username room
  | _ => False
  end.

(** ** Runs of sends *)

Record sending := Sending {
  sender : Socket.t;
  text : jsval;
  at1 : Z;
  at2 : Z
}.

Definition send_event (x : sending) : event :=
  SendMessage (Socket.id (sender x)) (PValue (text x)) (at1 x) (at2 x).

Definition sent (x : sending) : Message.t :=
  message_of (sender x) (text x) (at1 x) (at2 x).

(** A send by a connected socket of [room] that passes validation. *)
Definition valid_send (w : world) (room : ustring) (x : sending) : Prop :=
  sockets w !! Socket.id (sender x) = Some (sender x)
  ∧ Socket.room (sender x) = room
  ∧ body_of (text x) ≠ []
  ∧ length (body_of (text x)) ≤ 1000.

(** ** Concrete inputs *)

(** A username of 51 code units that trims to a single letter. *)
Definition padded_name : ustring := lit "a" ++ replicate 50 32%N.

(** A text of 1001 code units that trims to 1000, and one of 1001 blanks. *)
Definition padded_body : ustring := replicate 1000 97%N ++ [32%N].

Definition blank_body : ustring := replicate 1001 32%N.

(** Alice alone in ["general"]. *)
Definition alice : Socket.t :=
  Socket.mk (lit "s1") (lit "Alice") (lit "general").

Definition one_user : world :=
  after_join alice 10 (opened alice init).

(** Alice after she said hi. *)
Definition said_hi : world :=
  set_messageHistory
    <[lit "general" := [message_of alice (JStr (lit "hi")) 20 21]]> one_user.

(** Bob comes to another room and talks there. *)
Definition bob_elsewhere : list event :=
  [ Connect (lit "s2") (JStr (lit "Bob")) (JStr (lit "lobby")) 40 41;
    SendMessage (lit "s2") (PValue (JStr (lit "anyone?"))) 50 51 ].

(** Alice says hi 101 times. *)
Definition flood : list sending :=
  replicate 101 (Sending alice (JStr (lit "hi")) 20 21).

(** * The rest of the engine *)

(** ** The diagnostic endpoints

    The bodies of the two [res.json] calls.  [rooms] is a [gmap], which does
    not keep the insertion order a JavaScript [Map] iterates in:
    [roomDetails] lists the entries in the order of [map_to_list], and
    nothing stated about it depends on the order. *)

Module Health.
Record t := mk {
  status : string;
  timestamp : Z;
  connections : nat;
  rooms : nat
}.
End Health.

Module RoomDetail.
Record t := mk { room : ustring; users : nat }.
End RoomDetail.

Module Stats.
Record t := mk {
  totalUsers : nat;
  totalRooms : nat;
  roomDetails : list RoomDetail.t
}.
End Stats.

(** [app.get('/health')] *)
Definition health (w : world) (now : Z) : Health.t :=
  Health.mk "ok" now (size (users w)) (size (rooms w)).

(** [app.get('/stats')] *)
Definition stats (w : world) : Stats.t :=
  Stats.mk (size (users w)) (size (rooms w))
    ((λ entry, RoomDetail.mk entry.1 (length entry.2))
       <$> map_to_list (rooms w)).

(** ** What is stored *)

(** A username as the middleware lets it through. *)
Definition name_ok (username : ustring) : Prop :=
  1 ≤ length username ∧ length username ≤ 50
  ∧ starts_ws username = false ∧ ends_ws username = false.

Definition trimmed (s : ustring) : Prop :=
  starts_ws s = false ∧ ends_ws s = false.

(** A message as [send_message] stores it in the ring of [room]. *)
Definition message_ok (room : ustring) (m : Message.t) : Prop :=
  Message.room m = room
  ∧ name_ok (Message.username m)
  ∧ 1 ≤ length (Message.message m) ∧ length (Message.message m) ≤ 1000
  ∧ trimmed (Message.message m).

Record tidy (w : world) : Prop := Tidy {
  tidy_socket : ∀ i s, sockets w !! i = Some s →
    name_ok (Socket.username s) ∧ trimmed (Socket.room s);
  tidy_user : ∀ i u, users w !! i = Some u →
    name_ok (User.username u) ∧ trimmed (User.room u);
  tidy_ring : ∀ r h, messageHistory w !! r = Some h → Forall (message_ok r) h
}.

(** Who is in a room of the adapter: a connected socket of that room, or the
    connected socket whose id is the room's name. *)
Definition adapter_exact (w : world) : Prop :=
  ∀ r i, i ∈ in_room w r →
    ∃ s, sockets w !! i = Some s ∧ (r = Socket.room s ∨ r = i).

(** ** Where an event happens *)

(** The socket an event comes from. *)
Definition event_socket (e : event) : ustring :=
  match e with
  | Connect id _ _ _ _ | SendMessage id _ _ _ | Typing id | StopTyping id
  | Disconnect id _ => id
  end.

(** The room an event happens in: the room of its socket, or the room a
    connection is accepted into. *)
Definition event_room (w : world) (e : event) : option ustring :=
  match e with
  | Connect _ auth_username auth_room _ _ =>
    match admission auth_username auth_room with
    | Accepted _ room => Some room
    | _ => None
    end
  | _ => Socket.room <$> sockets w !! event_socket e
  end.

(** The three ways a handler of socket [id] in [room] addresses an event. *)
Definition addressed_within (id room : ustring) (t : target) : Prop :=
  t = ToSocket id ∨ t = ToRoom room ∨ t = ToRoomExcept room id.

(** ** More concrete inputs *)

Definition bob : Socket.t := Socket.mk (lit "s2") (lit "Bob") (lit "general").

(** Bob joins Alice. *)
Definition bob_joins : event :=
  Connect (lit "s2") (JStr (lit "Bob")) (JStr (lit "general")) 40 41.

Definition two_users : world := after_join bob 40 (opened bob one_user).

(** ** One event as a transition

    What [step] does in a consistent state, case by case. *)

Definition join_events (socket : Socket.t) (now2 : Z) (w' : world)
    : list emission :=
  let id := Socket.id socket in
  let room := Socket.room socket in
  [Emission (ToSocket id) {[ id ]}
     (message_history
        (slice_last 50 (default [] (messageHistory w' !! room))));
   Emission (ToRoomExcept room id) (in_room w' room ∖ {[ id ]})
     (user_joined (Socket.username socket) now2 (memberCount w' room));
   Emission (ToRoom room) (in_room w' room) (user_list (roster w' room))].

Definition leave_events (socket : Socket.t) (now : Z) (w' : world)
    : list emission :=
  let id := Socket.id socket in
  let room := Socket.room socket in
  [Emission (ToRoomExcept room id) (in_room w' room ∖ {[ id ]})
     (user_left (Socket.username socket) now (memberCount w' room));
   Emission (ToRoom room) (in_room w' room) (user_list (roster w' room))].

Inductive transition : world → event → world → list emission → Prop :=
  | tr_accept w id auth_username auth_room now1 now2 username room :
      sockets w !! id = None →
      admission auth_username auth_room = Accepted username room →
      transition w (Connect id auth_username auth_room now1 now2)
        (after_join (Socket.mk id username room) now1
           (opened (Socket.mk id username room) w))
        (join_events (Socket.mk id username room) now2
           (after_join (Socket.mk id username room) now1
              (opened (Socket.mk id username room) w)))
  | tr_reject w id auth_username auth_room now1 now2 message :
      sockets w !! id = None →
      admission auth_username auth_room = Rejected message →
      transition w (Connect id auth_username auth_room now1 now2) w []
  | tr_send_dropped w id socket data now1 now2 :
      sockets w !! id = Some socket →
      transition w (SendMessage id data now1 now2) w []
  | tr_send_error w id socket data now1 now2 message :
      sockets w !! id = Some socket →
      transition w (SendMessage id data now1 now2) w
        [to_sender socket (error message)]
  | tr_send w id socket field history now1 now2 :
      sockets w !! id = Some socket →
      body_of field ≠ [] → length (body_of field) ≤ 1000 →
      messageHistory w !! Socket.room socket = Some history →
      transition w (SendMessage id (PValue field) now1 now2)
        (set_messageHistory
           <[Socket.room socket :=
               appended history (message_of socket field now1 now2)]> w)
        [Emission (ToRoom (Socket.room socket))
           (in_room w (Socket.room socket))
           (new_message (message_of socket field now1 now2))]
  | tr_typing w id socket :
      sockets w !! id = Some socket →
      transition w (Typing id) w
        [Emission (ToRoomExcept (Socket.room socket) (Socket.id socket))
           (in_room w (Socket.room socket) ∖ {[ Socket.id socket ]})
           (user_typing (Socket.username socket))]
  | tr_stop_typing w id socket :
      sockets w !! id = Some socket →
      transition w (StopTyping id) w
        [Emission (ToRoomExcept (Socket.room socket) (Socket.id socket))
           (in_room w (Socket.room socket) ∖ {[ Socket.id socket ]})
           (user_stop_typing (Socket.username socket))]
  | tr_leave w id now socket :
      sockets w !! id = Some socket →
      transition w (Disconnect id now)
        (after_leave id (Socket.room socket) w)
        (leave_events (Socket.mk id (Socket.username socket)
                         (Socket.room socket)) now
           (after_leave id (Socket.room socket) w)).

(** * Strings *)

Section Trim.

Lemma trimStart_suffix s : ∃ p, s = p ++ trimStart s.
Proof.
  induction s as [|c s [p IH]]; [by exists []|].
  simpl. destruct (is_ws c).
  - exists (c :: p). by rewrite {1}IH.
  - by exists [].
Qed.

Lemma trimStart_starts s : starts_ws (trimStart s) = false.
Proof.
  induction s as [|c s IH]; [done|].
  simpl. destruct (is_ws c) eqn:E; [done|]. by rewrite /= E.
Qed.

Lemma trimStart_id s : starts_ws s = false → trimStart s = s.
Proof. destruct s as [|c s]; [done|]. simpl. by intros ->. Qed.

Lemma trimEnd_prefix s : ∃ q, s = trimEnd s ++ q.
Proof.
  destruct (trimStart_suffix (reverse s)) as [p Hp].
  exists (reverse p). rewrite /trimEnd -reverse_app -Hp.
  by rewrite reverse_involutive.
Qed.

Lemma trimEnd_ends s : ends_ws (trimEnd s) = false.
Proof.
  rewrite /ends_ws /trimEnd reverse_involutive. apply trimStart_starts.
Qed.

Lemma trimEnd_id s : ends_ws s = false → trimEnd s = s.
Proof.
  intros H. rewrite /trimEnd (trimStart_id _ H).
  apply reverse_involutive.
Qed.

Lemma trim_starts s : starts_ws (trim s) = false.
Proof.
  rewrite /trim. pose proof (trimStart_starts s) as H.
  destruct (trimEnd_prefix (trimStart s)) as [q Hq].
  destruct (trimEnd (trimStart s)) as [|c t] eqn:E; [done|].
  rewrite Hq in H. exact H.
Qed.

Lemma trim_ends s : ends_ws (trim s) = false.
Proof. apply trimEnd_ends. Qed.

Lemma trim_id s : starts_ws s = false → ends_ws s = false → trim s = s.
Proof.
  intros H1 H2. rewrite /trim (trimStart_id s H1). by apply trimEnd_id.
Qed.

Lemma trim_length s : length (trim s) ≤ length s.
Proof.
  rewrite /trim.
  destruct (trimEnd_prefix (trimStart s)) as [q Hq].
  destruct (trimStart_suffix s) as [p Hp].
  apply (f_equal length) in Hq, Hp. rewrite length_app in Hq.
  rewrite length_app in Hp. lia.
Qed.

Lemma trimStart_blank s : forallb is_ws s = true → trimStart s = [].
Proof.
  induction s as [|c s IH]; [done|].
  simpl. intros [-> H]%andb_prop. by apply IH.
Qed.

Lemma trim_blank s : forallb is_ws s = true → trim s = [].
Proof. intros H. by rewrite /trim (trimStart_blank s H). Qed.

Lemma length_zero_iff {A} (l : list A) : (length l =? 0) = true ↔ l = [].
Proof. destruct l; simpl; split; done. Qed.

End Trim.

(** * The handlers in closed form *)

Ltac unfold_M :=
  rewrite /when /defined /gets /modify /emit /throw /try_catch
          /mbind /M_bind /mret /M_ret /=.

Section SendMessage.
Variables (socket : Socket.t) (now1 now2 : Z) (w : world).

Let id := Socket.id socket.
Let room := Socket.room socket.

Lemma send_message_nullish :
  send_message socket PNullish now1 now2 w
  = Ok tt w [to_sender socket (error "Failed to send message")].
Proof. done. Qed.

Lemma send_message_blank field :
  body_of field = [] →
  send_message socket (PValue field) now1 now2 w = Ok tt w [].
Proof.
  rewrite /body_of /send_message => H. unfold_M. by rewrite H.
Qed.

Lemma send_message_too_long field :
  1000 < length (body_of field) →
  send_message socket (PValue field) now1 now2 w
  = Ok tt w [to_sender socket (error "Message too long")].
Proof.
  rewrite /body_of /send_message => H. unfold_M.
  destruct (trim _) as [|c b] eqn:E; [simpl in H; lia|].
  rewrite bool_decide_true //=.
  destruct (Nat.ltb_spec 1000 (S (length b))); [done|simpl in H; lia].
Qed.

Lemma send_message_no_ring field :
  body_of field ≠ [] → length (body_of field) ≤ 1000 →
  messageHistory w !! room = None →
  send_message socket (PValue field) now1 now2 w
  = Ok tt w [to_sender socket (error "Failed to send message")].
Proof.
  rewrite /body_of /send_message => Hne Hlen Hring. unfold_M.
  destruct (trim _) as [|c b] eqn:E; [done|].
  rewrite bool_decide_true //=.
  destruct (Nat.ltb_spec 1000 (S (length b))); [simpl in Hlen; lia|].
  by rewrite /= Hring.
Qed.

Lemma send_message_valid field history :
  body_of field ≠ [] → length (body_of field) ≤ 1000 →
  messageHistory w !! room = Some history →
  send_message socket (PValue field) now1 now2 w
  = Ok tt
      (set_messageHistory
         <[room := appended history (message_of socket field now1 now2)]> w)
      [Emission (ToRoom room) (in_room w room)
         (new_message (message_of socket field now1 now2))].
Proof.
  rewrite /message_of /body_of /send_message => Hne Hlen Hring. unfold_M.
  destruct (trim _) as [|c b] eqn:E; [done|].
  rewrite bool_decide_true //=.
  destruct (Nat.ltb_spec 1000 (S (length b))); [simpl in Hlen; lia|].
  rewrite /= Hring /= /appended.
  destruct (100 <? _) eqn:Hfull; rewrite /= ?lookup_insert_eq /=.
  - by rewrite /set_messageHistory /= insert_insert_eq.
  - done.
Qed.

End SendMessage.

Section Handlers.

Lemma foldl_roster (us : gmap ustring User.t) members acc :
  foldl (λ userList socketId,
           match us !! socketId with
           | Some user =>
             push userList
               (Entry.mk (User.username user) (User.joinedAt user))
           | None => userList
           end) acc members
  = acc ++ omap (λ socketId, entry_of <$> us !! socketId) members.
Proof.
  revert acc. induction members as [|i l IH] => acc /=.
  - by rewrite app_nil_r.
  - rewrite IH. destruct (us !! i) as [u|] => //=.
    by rewrite /push -app_assoc.
Qed.

Lemma broadcastUserList_run room w :
  broadcastUserList room w
  = Ok tt w [Emission (ToRoom room) (in_room w room)
               (user_list (roster w room))].
Proof.
  rewrite /broadcastUserList /roster. unfold_M.
  destruct (rooms w !! room) as [members|] => //=.
  by rewrite foldl_roster.
Qed.

Lemma connection_run socket now1 now2 w :
  let id := Socket.id socket in
  let room := Socket.room socket in
  let w' := after_join socket now1 w in
  connection socket now1 now2 w
  = Ok tt w'
      [Emission (ToSocket id) {[ id ]}
         (message_history
            (slice_last 50 (default [] (messageHistory w' !! room))));
       Emission (ToRoomExcept room id) (in_room w' room ∖ {[ id ]})
         (user_joined (Socket.username socket) now2 (memberCount w' room));
       Emission (ToRoom room) (in_room w' room)
         (user_list (roster w' room))].
Proof.
  rewrite /connection /after_join /memberCount /=.
  rewrite /when /defined /gets /modify /emit /throw
          /mbind /M_bind /mret /M_ret /=.
  destruct (rooms w !! Socket.room socket) as [members|] eqn:E;
    rewrite /= ?E /= ?lookup_insert_eq /= ?broadcastUserList_run /=.
  - done.
  - by rewrite /set_rooms /= insert_insert_eq.
Qed.

Lemma disconnect_run socket now w :
  let id := Socket.id socket in
  disconnect socket now w
  = match users w !! id with
    | Some user =>
      let room := User.room user in
      let w1 := left_room id room w in
      Ok tt (set_users (delete id) w1)
        [Emission (ToRoomExcept room id) (in_room w1 room ∖ {[ id ]})
           (user_left (User.username user) now (memberCount w1 room));
         Emission (ToRoom room) (in_room w1 room)
           (user_list (roster w1 room))]
    | None => Ok tt (set_users (delete id) w) []
    end.
Proof.
  rewrite /disconnect /left_room /memberCount /=.
  rewrite /when /defined /gets /modify /emit /throw
          /mbind /M_bind /mret /M_ret /=.
  destruct (users w !! Socket.id socket) as [user|] eqn:Eu; [|done].
  rewrite /=.
  destruct (rooms w !! User.room user) as [members|] eqn:E;
    rewrite /= ?E /= ?lookup_insert_eq /=.
  - destruct (length (set_delete _ members) =? 0) eqn:Hz;
      rewrite /= ?lookup_insert_eq ?lookup_delete_eq /=
              ?broadcastUserList_run /=.
    + by rewrite /set_rooms /set_messageHistory /= delete_insert_eq.
    + done.
  - by rewrite ?broadcastUserList_run /= ?E.
Qed.

End Handlers.

(** * Consistency of the three maps with the transport *)

Section Sets.

Lemma elem_of_set_add i x l : i ∈ set_add x l ↔ i = x ∨ i ∈ l.
Proof.
  rewrite /set_add. case_bool_decide as Hx.
  - split; [by right|]. by intros [->|?].
  - rewrite elem_of_app list_elem_of_singleton. tauto.
Qed.

Lemma set_add_nonempty x l : set_add x l ≠ [].
Proof.
  intros H. assert (x ∈ set_add x l) as Hx by (apply elem_of_set_add; auto).
  rewrite H in Hx. by apply not_elem_of_nil in Hx.
Qed.

Lemma NoDup_set_add x l : NoDup l → NoDup (set_add x l).
Proof.
  rewrite /set_add => H. case_bool_decide; [done|].
  apply NoDup_app. split_and!; [done| |apply NoDup_singleton].
  intros y Hy ->%list_elem_of_singleton. done.
Qed.

Lemma set_add_fresh x l : x ∉ l → set_add x l = l ++ [x].
Proof. rewrite /set_add => H. by rewrite bool_decide_false. Qed.

Lemma elem_of_set_delete i x l : i ∈ set_delete x l ↔ i ≠ x ∧ i ∈ l.
Proof. by rewrite /set_delete list_elem_of_filter. Qed.

Lemma NoDup_set_delete x l : NoDup l → NoDup (set_delete x l).
Proof. apply NoDup_filter. Qed.

Lemma elem_of_adapter_join (j i r r' : ustring) (a : gmap ustring (gset ustring)) :
  j ∈ default ∅ (adapter_join i r a !! r')
  ↔ (j = i ∧ r = r') ∨ j ∈ default ∅ (a !! r').
Proof.
  rewrite /adapter_join lookup_insert. case_decide; simpl.
  - subst. set_solver.
  - naive_solver.
Qed.

Lemma elem_of_adapter_leave_all (j i r : ustring) (a : gmap ustring (gset ustring)) :
  j ∈ default ∅ (adapter_leave_all i a !! r)
  ↔ j ≠ i ∧ j ∈ default ∅ (a !! r).
Proof.
  rewrite /adapter_leave_all lookup_fmap.
  destruct (a !! r) as [s|]; simpl; set_solver.
Qed.

Lemma length_appended h m : length h ≤ 100 → length (appended h m) ≤ 100.
Proof.
  rewrite /appended /push /shift => H.
  destruct (Nat.ltb_spec 100 (length (h ++ [m]))) as [Hlt|Hle]; [|done].
  destruct h as [|x h]; rewrite /= ?length_app /= in H Hlt |- *. all: lia.
Qed.

End Sets.

Lemma consistent_init : consistent init.
Proof.
  split; rewrite /init /in_room /=; intros *;
    rewrite ?lookup_empty; done.
Qed.

Lemma consistent_join socket now1 w :
  consistent w → sockets w !! Socket.id socket = None →
  consistent (after_join socket now1 (opened socket w)).
Proof.
  intros I Hfresh.
  assert (users w !! Socket.id socket = None) as Hu.
  { destruct (users w !! Socket.id socket) as [u|] eqn:E; [|done].
    apply (inv_user_socket _ I) in E as [s Hs]. congruence. }
  assert (∀ r l, rooms w !! r = Some l → Socket.id socket ∉ l) as Hnot.
  { intros r l Hl Hin.
    destruct (inv_member _ I _ _ _ Hl Hin) as (u & Hu' & _). congruence. }
  set (id := Socket.id socket) in *. set (room := Socket.room socket) in *.
  split; rewrite /after_join /opened /in_room /=; fold id; fold room.
  - intros r. destruct (decide (r = room)) as [->|Hne].
    + rewrite lookup_insert_eq.
      destruct (rooms w !! room) as [l|] eqn:E.
      * rewrite (inv_history _ I) E. split; eauto.
      * rewrite lookup_insert_eq. split; eauto.
    + rewrite lookup_insert_ne //.
      destruct (rooms w !! room); rewrite ?lookup_insert_ne //;
        apply (inv_history _ I).
  - intros r l. destruct (decide (r = room)) as [->|Hne].
    + rewrite lookup_insert_eq => [= <-]. apply set_add_nonempty.
    + rewrite lookup_insert_ne //. apply (inv_nonempty _ I).
  - intros r l. destruct (decide (r = room)) as [->|Hne].
    + rewrite lookup_insert_eq => [= <-]. apply NoDup_set_add.
      destruct (rooms w !! room) eqn:E; [|apply NoDup_nil_2].
      by apply (inv_nodup _ I room).
    + rewrite lookup_insert_ne //. apply (inv_nodup _ I).
  - intros r l i. destruct (decide (r = room)) as [->|Hne].
    + rewrite lookup_insert_eq => [= <-] /elem_of_set_add [->|Hin].
      * rewrite lookup_insert_eq. eauto.
      * destruct (rooms w !! room) as [l0|] eqn:E;
          [|by apply not_elem_of_nil in Hin].
        rewrite lookup_insert_ne; [by intros <-; eapply Hnot|].
        by apply (inv_member _ I room l0).
    + rewrite lookup_insert_ne // => Hl Hin.
      rewrite lookup_insert_ne; [by intros <-; eapply Hnot|].
      by apply (inv_member _ I r l).
  - intros i u. destruct (decide (i = id)) as [->|Hne].
    + rewrite lookup_insert_eq => [= <-] /=. rewrite lookup_insert_eq.
      eexists; split; [done|]. apply elem_of_set_add. by left.
    + rewrite lookup_insert_ne // => Hi.
      destruct (inv_user _ I _ _ Hi) as (l & Hl & Hin).
      destruct (decide (User.room u = room)) as [Heq|Hr].
      * rewrite Heq lookup_insert_eq. rewrite Heq in Hl. rewrite Hl /=.
        eexists; split; [done|]. apply elem_of_set_add. by right.
      * rewrite lookup_insert_ne //. eauto.
  - intros i s. destruct (decide (i = id)) as [->|Hne].
    + rewrite !lookup_insert_eq => [= <-]. split; [done|]. eauto.
    + rewrite !lookup_insert_ne //. apply (inv_socket _ I).
  - intros i u. destruct (decide (i = id)) as [->|Hne].
    + rewrite !lookup_insert_eq. eauto.
    + rewrite !lookup_insert_ne //. apply (inv_user_socket _ I).
  - intros i s. destruct (decide (i = id)) as [->|Hne].
    + rewrite lookup_insert_eq => [= <-].
      apply elem_of_adapter_join. by left.
    + rewrite lookup_insert_ne // => Hs.
      apply elem_of_adapter_join. right. apply elem_of_adapter_join. right.
      by apply (inv_adapter _ I).
  - intros r h.
    destruct (rooms w !! room); [apply (inv_ring _ I)|].
    destruct (decide (r = room)) as [->|Hne].
    + rewrite lookup_insert_eq => [= <-] /=. lia.
    + rewrite lookup_insert_ne //. apply (inv_ring _ I).
Qed.

Lemma consistent_send room history m w :
  consistent w → messageHistory w !! room = Some history →
  consistent (set_messageHistory <[room := appended history m]> w).
Proof.
  intros I Hring. split; rewrite /set_messageHistory /in_room /=;
    try apply I.
  - intros r. rewrite -(inv_history _ I) lookup_insert_is_Some.
    split; [intros [<-|[_ ?]]; eauto|]. destruct (decide (room = r)); auto.
  - intros r h [[<- <-]|[_ Hh]]%lookup_insert_Some.
    + apply length_appended. by apply (inv_ring _ I room).
    + by apply (inv_ring _ I r).
Qed.

Lemma consistent_leave id s u w :
  consistent w → sockets w !! id = Some s → users w !! id = Some u →
  consistent (set_users (delete id) (left_room id (User.room u) (closed id w))).
Proof.
  intros I Hs Hu.
  destruct (inv_user _ I _ _ Hu) as (l & Hl & Hin).
  assert (∀ r l' i, rooms w !! r = Some l' → i ∈ l' → r ≠ User.room u →
          i ≠ id) as Hother.
  { intros r l' i Hl' Hi Hr ->.
    destruct (inv_member _ I _ _ _ Hl' Hi) as (u' & Hu' & Hr'). congruence. }
  rewrite /left_room /closed /= Hl.
  destruct (length (set_delete id l) =? 0) eqn:Hz.
  - apply length_zero_iff in Hz.
    split; rewrite /set_users /in_room /=.
    + intros r. rewrite !lookup_delete_is_Some. rewrite (inv_history _ I).
      tauto.
    + intros r l' [_ Hl']%lookup_delete_Some. by apply (inv_nonempty _ I r).
    + intros r l' [_ Hl']%lookup_delete_Some. by apply (inv_nodup _ I r).
    + intros r l' i [Hr Hl']%lookup_delete_Some Hi.
      rewrite lookup_delete_ne; [|by apply (inv_member _ I r l')].
      apply not_eq_sym. eapply Hother; eauto.
    + intros i u' [Hi Hu']%lookup_delete_Some.
      destruct (inv_user _ I _ _ Hu') as (l' & Hl' & Hin').
      exists l'. split; [|done]. rewrite lookup_delete_ne //.
      intros Heq. rewrite -Heq Hl in Hl'. injection Hl' as <-.
      assert (i ∈ set_delete id l) as Hd by (apply elem_of_set_delete; auto).
      rewrite Hz in Hd. by apply not_elem_of_nil in Hd.
    + intros i s' [Hi Hs']%lookup_delete_Some.
      rewrite lookup_delete_ne //. by apply (inv_socket _ I).
    + intros i u' [Hi Hu']%lookup_delete_Some.
      rewrite lookup_delete_ne //. by apply (inv_user_socket _ I i u').
    + intros i s' [Hi Hs']%lookup_delete_Some.
      apply elem_of_adapter_leave_all. split; [done|].
      by apply (inv_adapter _ I).
    + intros r h [_ Hh]%lookup_delete_Some. by apply (inv_ring _ I r).
  - assert (set_delete id l ≠ []) as Hne.
    { intros Heq. by rewrite Heq in Hz. }
    split; rewrite /set_users /in_room /=.
    + intros r. rewrite lookup_insert_is_Some (inv_history _ I).
      split; [destruct (decide (User.room u = r)); auto|].
      intros [<-|[_ ?]]; eauto.
    + intros r l' [[_ <-]|[_ Hl']]%lookup_insert_Some; [done|].
      by apply (inv_nonempty _ I r).
    + intros r l' [[_ <-]|[_ Hl']]%lookup_insert_Some.
      * apply NoDup_set_delete. by apply (inv_nodup _ I (User.room u)).
      * by apply (inv_nodup _ I r).
    + intros r l' i [[<- <-]|[Hr Hl']]%lookup_insert_Some Hi.
      * apply elem_of_set_delete in Hi as [Hi Hi'].
        rewrite lookup_delete_ne //.
        by apply (inv_member _ I (User.room u) l).
      * rewrite lookup_delete_ne; [|by apply (inv_member _ I r l')].
        apply not_eq_sym. eapply Hother; eauto.
    + intros i u' [Hi Hu']%lookup_delete_Some.
      destruct (inv_user _ I _ _ Hu') as (l' & Hl' & Hin').
      destruct (decide (User.room u' = User.room u)) as [Heq|Hr].
      * rewrite Heq lookup_insert_eq. rewrite Heq Hl in Hl'.
        injection Hl' as <-. eexists; split; [done|].
        apply elem_of_set_delete; auto.
      * rewrite lookup_insert_ne; eauto.
    + intros i s' [Hi Hs']%lookup_delete_Some.
      rewrite lookup_delete_ne //. by apply (inv_socket _ I).
    + intros i u' [Hi Hu']%lookup_delete_Some.
      rewrite lookup_delete_ne //. by apply (inv_user_socket _ I i u').
    + intros i s' [Hi Hs']%lookup_delete_Some.
      apply elem_of_adapter_leave_all. split; [done|].
      by apply (inv_adapter _ I).
    + apply I.
Qed.

(** ** One event, case by case *)

Lemma step_connect w id auth_username auth_room now1 now2 username room :
  sockets w !! id = None →
  admission auth_username auth_room = Accepted username room →
  step w (Connect id auth_username auth_room now1 now2)
  = completed (connection (Socket.mk id username room) now1 now2
                 (opened (Socket.mk id username room) w)).
Proof. rewrite /step => -> -> //. Qed.

Lemma step_disconnect w id now socket :
  sockets w !! id = Some socket →
  step w (Disconnect id now)
  = completed (disconnect socket now (closed id w)).
Proof. rewrite /step => -> //. Qed.

Lemma step_send w id data now1 now2 socket :
  sockets w !! id = Some socket →
  step w (SendMessage id data now1 now2)
  = completed (send_message socket data now1 now2 w).
Proof. rewrite /step => -> //. Qed.

Lemma send_message_cases socket data now1 now2 w :
  (∃ out, send_message socket data now1 now2 w = Ok tt w out)
  ∨ (∃ field history,
       data = PValue field ∧ body_of field ≠ [] ∧
       length (body_of field) ≤ 1000 ∧
       messageHistory w !! Socket.room socket = Some history).
Proof.
  destruct data as [|field]; [left; by eexists|].
  destruct (decide (body_of field = [])) as [Hb|Hb].
  { left. eexists. by apply send_message_blank. }
  destruct (le_lt_dec (length (body_of field)) 1000) as [Hlen|Hlen]; last first.
  { left. eexists. by apply send_message_too_long. }
  destruct (messageHistory w !! Socket.room socket) as [h|] eqn:E.
  - right. by exists field, h.
  - left. eexists. by apply send_message_no_ring.
Qed.

Lemma consistent_step w e w' out :
  consistent w → step w e = Some (w', out) → consistent w'.
Proof.
  intros I. destruct e as [id au ar n1 n2|id data n1 n2|id|id|id n]; simpl.
  - destruct (sockets w !! id) eqn:Hs; [done|].
    destruct (admission au ar) as [u r| |] eqn:Ha; [|by intros [= <- _]|done].
    rewrite connection_run /=. intros [= <- _].
    by apply (consistent_join (Socket.mk id u r)).
  - destruct (sockets w !! id) as [s|] eqn:Hs; [simpl|done].
    destruct (send_message_cases s data n1 n2 w)
      as [[o ->]|(f & h & -> & Hb & Hlen & Hh)].
    + by intros [= <- _].
    + rewrite (send_message_valid _ _ _ _ _ h) //=. intros [= <- _].
      by apply consistent_send.
  - destruct (sockets w !! id) as [s|]; [simpl|done]. by intros [= <- _].
  - destruct (sockets w !! id) as [s|]; [simpl|done]. by intros [= <- _].
  - destruct (sockets w !! id) as [s|] eqn:Hs; [simpl|done].
    destruct (inv_socket _ I _ _ Hs) as (Hid & u & Hu & _).
    rewrite disconnect_run /= Hid Hu. intros [= <- _].
    by apply (consistent_leave id s u).
Qed.

Lemma reachable_consistent w : reachable w → consistent w.
Proof.
  induction 1 as [|w e w' out _ IH Hstep]; [apply consistent_init|].
  by eapply consistent_step.
Qed.

(** * Admission *)

Lemma trim_nonempty s : trim s ≠ [] → s ≠ [].
Proof. by intros H ->. Qed.

Lemma admission_string s auth_room :
  trim s ≠ [] → length s ≤ 50 →
  admission (JStr s) auth_room
  = match normalized_room auth_room with
    | Some r => Accepted (trim s) r
    | None => AdmissionThrew
    end.
Proof.
  intros Hne Hlen. rewrite /admission /normalized_room /=.
  rewrite bool_decide_true; [by apply trim_nonempty|]. simpl.
  destruct (trim s) as [|c t] eqn:E; [done|]. simpl.
  destruct (Nat.ltb_spec 50 (length s)); [lia|done].
Qed.

Lemma admission_too_long s auth_room :
  trim s ≠ [] → 50 < length s →
  admission (JStr s) auth_room = Rejected "Username too long".
Proof.
  intros Hne Hlen. rewrite /admission /=.
  rewrite bool_decide_true; [by apply trim_nonempty|]. simpl.
  destruct (trim s) as [|c t] eqn:E; [done|]. simpl.
  destruct (Nat.ltb_spec 50 (length s)); [done|lia].
Qed.

Lemma admission_blank s auth_room :
  trim s = [] → admission (JStr s) auth_room = Rejected "Invalid username".
Proof.
  intros H. rewrite /admission /=. case_bool_decide; [|done].
  by rewrite /= H.
Qed.

Lemma admission_falsy v auth_room :
  truthy v = false → admission v auth_room = Rejected "Invalid username".
Proof. intros H. by rewrite /admission H. Qed.

Lemma normalized_room_falsy v :
  truthy v = false → normalized_room v = Some (lit "general").
Proof. intros H. by rewrite /normalized_room /js_or H. Qed.

Lemma normalized_room_string r :
  r ≠ [] → normalized_room (JStr r) = Some (trim r).
Proof.
  intros H. by rewrite /normalized_room /js_or /= bool_decide_true.
Qed.

Lemma normalized_room_defined v :
  string_or_falsy v → is_Some (normalized_room v).
Proof.
  destruct v as [| |r|[] shown]; try done;
    try (intros _; by exists (lit "general")).
  intros _. destruct (decide (r = [])) as [->|Hr];
    [by exists (lit "general")|].
  rewrite normalized_room_string; [done|]. by exists (trim r).
Qed.

(** C3, the input on which the claim fails: the trimmed username is one
    character long, neither empty nor over 50 characters, and the
    connection is refused with [Username too long], because line 57
    measures the username before it is trimmed. *)
Lemma padded_name_refused :
  trim padded_name ≠ [] ∧ length (trim padded_name) ≤ 50
  ∧ admission (JStr padded_name) (JStr (lit "general"))
    = Rejected "Username too long".
Proof. split_and!; [by vm_compute|vm_compute; lia|by vm_compute]. Qed.

(** C3 (amended): admission fails with [Invalid username] exactly when the
    username is falsy (absent, empty) or trims to the empty string; it
    fails with [Username too long] exactly when the username is a string
    that does not trim to empty and whose length before trimming exceeds
    50; every string username that does not trim to empty and has at most
    50 code units before trimming is accepted, with a room that is a string
    or falsy, and the accepted username is the trimmed one, which neither
    starts nor ends with whitespace. *)
Theorem admission_username (auth_username auth_room : jsval) :
  (admission auth_username auth_room = Rejected "Invalid username"
   ↔ truthy auth_username = false
     ∨ ∃ s, auth_username = JStr s ∧ trim s = [])
  ∧ (admission auth_username auth_room = Rejected "Username too long"
     ↔ ∃ s, auth_username = JStr s ∧ trim s ≠ [] ∧ 50 < length s)
  ∧ (∀ s, auth_username = JStr s → trim s ≠ [] → length s ≤ 50 →
       string_or_falsy auth_room →
       ∃ room, admission auth_username auth_room = Accepted (trim s) room
               ∧ starts_ws (trim s) = false ∧ ends_ws (trim s) = false
               ∧ length (trim s) ≤ 50).
Proof.
  split_and!.
  - split.
    + destruct auth_username as [| |s|[] shown]; try (by left).
      destruct (decide (trim s = [])) as [Hs|Hs]; [by right; exists s|].
      destruct (le_lt_dec (length s) 50) as [Hlen|Hlen].
      * rewrite admission_string //. by destruct (normalized_room _).
      * by rewrite admission_too_long.
    + intros [H|(s & -> & H)];
        [by apply admission_falsy|by apply admission_blank].
  - split.
    + destruct auth_username as [| |s|[] shown]; try done.
      destruct (decide (trim s = [])) as [Hs|Hs];
        [by rewrite admission_blank|].
      destruct (le_lt_dec (length s) 50) as [Hlen|Hlen]; [|by exists s].
      rewrite admission_string //. by destruct (normalized_room _).
    + intros (s & -> & Hs & Hlen). by apply admission_too_long.
  - intros s -> Hs Hlen [room Hroom]%normalized_room_defined.
    exists room. rewrite admission_string // Hroom.
    split_and!; [done|apply trim_starts|apply trim_ends|].
    pose proof (trim_length s). lia.
Qed.

Lemma admission_username_witness :
  ∃ room, admission (JStr (lit "  Alice ")) JUndefined
          = Accepted (trim (lit "  Alice ")) room
          ∧ starts_ws (trim (lit "  Alice ")) = false
          ∧ ends_ws (trim (lit "  Alice ")) = false
          ∧ length (trim (lit "  Alice ")) ≤ 50.
Proof.
  apply (proj2 (proj2 (admission_username (JStr (lit "  Alice ")) JUndefined))
           (lit "  Alice ")).
  - reflexivity.
  - vm_compute. discriminate.
  - vm_compute. lia.
  - exact I.
Defined.

Lemma body_of_string s : body_of (JStr s) = trim s.
Proof.
  rewrite /body_of /js_or /=. case_bool_decide as H; [done|].
  by subst.
Qed.

Lemma step_connect_run w id auth_username auth_room now1 now2 username room :
  sockets w !! id = None →
  admission auth_username auth_room = Accepted username room →
  let socket := Socket.mk id username room in
  let w' := after_join socket now1 (opened socket w) in
  step w (Connect id auth_username auth_room now1 now2)
  = Some (w',
      [Emission (ToSocket id) {[ id ]}
         (message_history
            (slice_last 50 (default [] (messageHistory w' !! room))));
       Emission (ToRoomExcept room id) (in_room w' room ∖ {[ id ]})
         (user_joined username now2 (memberCount w' room));
       Emission (ToRoom room) (in_room w' room)
         (user_list (roster w' room))]).
Proof.
  intros Hfresh Hadm. rewrite (step_connect _ _ _ _ _ _ _ _ Hfresh Hadm).
  by rewrite connection_run.
Qed.

Lemma after_join_member socket now1 w :
  let w' := after_join socket now1 w in
  users w' !! Socket.id socket
    = Some (User.mk (Socket.username socket) (Socket.room socket) now1)
  ∧ (∃ l, rooms w' !! Socket.room socket = Some l ∧ Socket.id socket ∈ l)
  ∧ Socket.id socket ∈ in_room w' (Socket.room socket).
Proof.
  rewrite /after_join /in_room /=. split_and!.
  - by rewrite lookup_insert_eq.
  - rewrite lookup_insert_eq. eexists; split; [done|].
    apply elem_of_set_add. by left.
  - apply elem_of_adapter_join. by left.
Qed.

(** C10: a falsy room value (absent, [null], the empty string) is replaced
    by ["general"]; a room string that is not empty and consists of
    whitespace only is kept, trimmed to the empty string, and the
    connection joins the room whose id is the empty string. *)
Theorem room_default :
  (∀ s auth_room,
     trim s ≠ [] → length s ≤ 50 → truthy auth_room = false →
     admission (JStr s) auth_room = Accepted (trim s) (lit "general"))
  ∧ (∀ s ws id now1 now2 w,
       trim s ≠ [] → length s ≤ 50 →
       ws ≠ [] → forallb is_ws ws = true → sockets w !! id = None →
       admission (JStr s) (JStr ws) = Accepted (trim s) []
       ∧ ∃ w' out,
           step w (Connect id (JStr s) (JStr ws) now1 now2) = Some (w', out)
           ∧ users w' !! id = Some (User.mk (trim s) [] now1)
           ∧ (∃ l, rooms w' !! [] = Some l ∧ id ∈ l)
           ∧ id ∈ in_room w' []).
Proof.
  split.
  - intros s v Hs Hlen Hv.
    by rewrite admission_string // normalized_room_falsy.
  - intros s ws id now1 now2 w Hs Hlen Hne Hws Hfresh.
    assert (admission (JStr s) (JStr ws) = Accepted (trim s) []) as Hadm.
    { by rewrite admission_string // normalized_room_string //
                 (trim_blank _ Hws). }
    split; [done|].
    eexists _, _. split; [by apply step_connect_run|].
    apply (after_join_member (Socket.mk id (trim s) [])).
Qed.

Lemma room_default_witness :
  admission (JStr (lit "Bob")) (JStr []) = Accepted (trim (lit "Bob")) (lit "general")
  ∧ admission (JStr (lit "Bob")) (JStr (lit "  "))
    = Accepted (trim (lit "Bob")) [].
Proof.
  split.
  - apply (proj1 room_default); [by vm_compute|vm_compute; lia|reflexivity].
  - apply (proj2 room_default (lit "Bob") (lit "  ") (lit "s1") 0%Z 0%Z init);
      [by vm_compute|vm_compute; lia|by vm_compute|reflexivity|reflexivity].
Defined.

(** C4 (amended): a [send_message] from a connected socket whose text is
    empty after trimming changes nothing and emits nothing; one whose text
    is longer than 1000 code units after trimming, so a text of 1001 code
    units after trimming, or a string of 1001 code units that neither
    starts nor ends with whitespace, changes nothing and emits exactly one
    event, [error] with [Message too long], addressed to the sender
    alone. *)
Theorem invalid_body_handling w id socket now1 now2 :
  sockets w !! id = Some socket →
  (∀ field, body_of field = [] →
     step w (SendMessage id (PValue field) now1 now2) = Some (w, []))
  ∧ (∀ s, trim s = [] →
       step w (SendMessage id (PValue (JStr s)) now1 now2) = Some (w, []))
  ∧ (∀ field, 1000 < length (body_of field) →
       step w (SendMessage id (PValue field) now1 now2)
       = Some (w, [to_sender socket (error "Message too long")]))
  ∧ (∀ field, length (body_of field) = 1001 →
       step w (SendMessage id (PValue field) now1 now2)
       = Some (w, [to_sender socket (error "Message too long")]))
  ∧ (∀ s, length s = 1001 → starts_ws s = false → ends_ws s = false →
       step w (SendMessage id (PValue (JStr s)) now1 now2)
       = Some (w, [to_sender socket (error "Message too long")])).
Proof.
  intros Hs. split_and!.
  - intros field H. by rewrite (step_send _ _ _ _ _ _ Hs) send_message_blank.
  - intros s H. rewrite (step_send _ _ _ _ _ _ Hs) send_message_blank //.
    by rewrite body_of_string.
  - intros field H.
    by rewrite (step_send _ _ _ _ _ _ Hs) send_message_too_long.
  - intros field H.
    rewrite (step_send _ _ _ _ _ _ Hs) send_message_too_long //. lia.
  - intros s Hlen H1 H2.
    rewrite (step_send _ _ _ _ _ _ Hs) send_message_too_long //.
    rewrite body_of_string trim_id //. lia.
Qed.

Lemma one_user_step :
  step init (Connect (lit "s1") (JStr (lit " Alice ")) JUndefined 10 11)
  = Some (one_user,
      [Emission (ToSocket (lit "s1")) {[ lit "s1" ]} (message_history []);
       Emission (ToRoomExcept (lit "general") (lit "s1"))
         (in_room one_user (lit "general") ∖ {[ lit "s1" ]})
         (user_joined (lit "Alice") 11 1);
       Emission (ToRoom (lit "general")) (in_room one_user (lit "general"))
         (user_list [Entry.mk (lit "Alice") 10])]).
Proof. by rewrite (step_connect_run _ _ _ _ _ _ (lit "Alice") (lit "general")). Qed.

Lemma one_user_reachable : reachable one_user.
Proof. eapply reachable_step; [apply reachable_init|apply one_user_step]. Qed.

Lemma one_user_alice : sockets one_user !! lit "s1" = Some alice.
Proof. by vm_compute. Qed.

Lemma invalid_body_handling_witness :
  step one_user
    (SendMessage (lit "s1") (PValue (JStr (replicate 1001 97%N))) 20 21)
  = Some (one_user, [to_sender alice (error "Message too long")]).
Proof.
  apply (proj2 (proj2 (proj2 (proj2
    (invalid_body_handling one_user (lit "s1") alice 20 21 one_user_alice))))).
  - by vm_compute.
  - by vm_compute.
  - by vm_compute.
Defined.

(** C4, the inputs on which the claim fails: line 103 trims the text before
    line 106 measures it.  A body of 1001 code units made of 1000 letters
    and a trailing blank is not refused: it is stored, trimmed to 1000, and
    broadcast as [new_message], and no [error] is sent.  A body of 1001
    blanks is dropped with no [error] either. *)
Lemma padded_body_accepted :
  length padded_body = 1001
  ∧ step one_user (SendMessage (lit "s1") (PValue (JStr padded_body)) 20 21)
    = Some (set_messageHistory
              <[lit "general" := [message_of alice (JStr padded_body) 20 21]]>
              one_user,
            [Emission (ToRoom (lit "general"))
               (in_room one_user (lit "general"))
               (new_message (message_of alice (JStr padded_body) 20 21))])
  ∧ Message.message (message_of alice (JStr padded_body) 20 21)
    = replicate 1000 97%N
  ∧ length blank_body = 1001
  ∧ step one_user (SendMessage (lit "s1") (PValue (JStr blank_body)) 20 21)
    = Some (one_user, []).
Proof.
  split_and!.
  - by vm_compute.
  - rewrite (step_send _ _ _ _ _ _ one_user_alice).
    rewrite (send_message_valid _ _ _ _ _ []).
    + by vm_compute.
    + vm_compute. lia.
    + by vm_compute.
    + done.
  - by vm_compute.
  - by vm_compute.
  - rewrite (step_send _ _ _ _ _ _ one_user_alice) send_message_blank //.
Qed.

(** C9, the input on which the claim fails: with no ring for the room, a
    valid message leaves the state alone but the sender is sent an [error]
    event. *)
Lemma send_without_ring_reports :
  messageHistory init !! Socket.room alice = None
  ∧ send_message alice (PValue (JStr (lit "hi"))) 20 21 init
    = Ok tt init [to_sender alice (error "Failed to send message")].
Proof. split; by vm_compute. Qed.

(** C9 (amended): when the room has no ring, a valid [send_message] does
    not escape the handler, leaves all state unchanged and broadcasts
    nothing, and the sender is sent [error] with [Failed to send message];
    a connected socket's room always has a ring, so this does not happen in
    a reachable state. *)
Theorem append_without_ring :
  (∀ socket field now1 now2 w,
     body_of field ≠ [] → length (body_of field) ≤ 1000 →
     messageHistory w !! Socket.room socket = None →
     send_message socket (PValue field) now1 now2 w
     = Ok tt w [to_sender socket (error "Failed to send message")])
  ∧ (∀ w id socket,
       reachable w → sockets w !! id = Some socket →
       is_Some (messageHistory w !! Socket.room socket)).
Proof.
  split.
  - intros. by apply send_message_no_ring.
  - intros w id socket I%reachable_consistent Hs.
    destruct (inv_socket _ I _ _ Hs) as (_ & u & Hu & Hr & _).
    destruct (inv_user _ I _ _ Hu) as (l & Hl & _).
    apply (inv_history _ I). rewrite -Hr. eauto.
Qed.

Lemma append_without_ring_witness :
  send_message alice (PValue (JStr (lit "hi"))) 20 21 init
  = Ok tt init [to_sender alice (error "Failed to send message")]
  ∧ is_Some (messageHistory one_user !! Socket.room alice).
Proof.
  split.
  - apply (proj1 append_without_ring);
      [by vm_compute|vm_compute; lia|reflexivity].
  - apply (proj2 append_without_ring one_user (lit "s1") alice
             one_user_reachable one_user_alice).
Defined.

(** * Joining and leaving, event by event *)

Lemma omap_ext_in {A B} (f g : A → option B) (l : list A) :
  (∀ x, x ∈ l → f x = g x) → omap f l = omap g l.
Proof.
  induction l as [|x l IH] => H; [done|].
  csimpl. rewrite (H x); [by left|]. rewrite IH; [|done].
  intros y Hy. apply H. by right.
Qed.

Lemma roster_users_delete id room w :
  roster (set_users (delete id) (left_room id room w)) room
  = roster (left_room id room w) room.
Proof.
  rewrite /roster /left_room.
  destruct (rooms w !! room) as [l|] eqn:E; [|by rewrite /= E].
  destruct (length (set_delete id l) =? 0); simpl.
  - by rewrite lookup_delete_eq.
  - rewrite lookup_insert_eq. apply omap_ext_in.
    intros i [Hi _]%elem_of_set_delete. by rewrite lookup_delete_ne.
Qed.

Lemma left_room_last id room w :
  rooms w !! room = Some [id] →
  left_room id room w
  = set_messageHistory (delete room) (set_rooms (delete room) w).
Proof.
  intros H. rewrite /left_room H.
  assert (set_delete id [id] = []) as ->; [|done].
  rewrite /set_delete filter_cons_False //. by intros Hne.
Qed.

Lemma left_room_more id room l w :
  rooms w !! room = Some l → set_delete id l ≠ [] →
  left_room id room w = set_rooms <[room := set_delete id l]> w.
Proof.
  intros H Hne. rewrite /left_room H.
  destruct (length _ =? 0) eqn:Hz; [|done].
  by apply length_zero_iff in Hz.
Qed.

Lemma step_disconnect_run w id now socket :
  consistent w → sockets w !! id = Some socket →
  let room := Socket.room socket in
  let w' := after_leave id room w in
  id ∈ members w room
  ∧ step w (Disconnect id now)
    = Some (w',
        [Emission (ToRoomExcept room id) (in_room w' room ∖ {[ id ]})
           (user_left (Socket.username socket) now (memberCount w' room));
         Emission (ToRoom room) (in_room w' room)
           (user_list (roster w' room))]).
Proof.
  intros I Hs.
  destruct (inv_socket _ I _ _ Hs) as (Hid & u & Hu & Hr & Hn).
  destruct (inv_user _ I _ _ Hu) as (l & Hl & Hin).
  cbv zeta. split.
  - by rewrite /members -Hr Hl.
  - rewrite (step_disconnect _ _ _ _ Hs) disconnect_run /= Hid Hu /=.
    by rewrite /after_leave roster_users_delete Hr Hn.
Qed.

Lemma roster_members w room l :
  consistent w → rooms w !! room = Some l →
  Forall2 (λ id entry,
             ∃ user, users w !! id = Some user ∧ User.room user = room
                     ∧ entry = entry_of user)
          l (roster w room).
Proof.
  intros I Hl. rewrite /roster Hl.
  assert (∀ i, i ∈ l → ∃ u, users w !! i = Some u ∧ User.room u = room)
    as Hall by (intros i Hi; by apply (inv_member _ I room l)).
  clear Hl. induction l as [|i l IH]; [constructor|].
  destruct (Hall i) as (u & Hu & Hr); [by left|].
  rewrite /= Hu /=. constructor; [by exists u|].
  apply IH. intros j Hj. apply Hall. by right.
Qed.

Lemma member_in_room w room i :
  consistent w → i ∈ members w room → i ∈ in_room w room.
Proof.
  intros I. rewrite /members.
  destruct (rooms w !! room) as [l|] eqn:Hl;
    [|by intros ?%not_elem_of_nil].
  simpl. intros Hi.
  destruct (inv_member _ I _ _ _ Hl Hi) as (u & Hu & Hr).
  destruct (inv_user_socket _ I _ _ Hu) as [s Hs].
  destruct (inv_socket _ I _ _ Hs) as (_ & u' & Hu' & Hr' & _).
  rewrite Hu in Hu'. injection Hu' as <-.
  rewrite -Hr Hr'. by apply (inv_adapter _ I).
Qed.

Lemma appended_eq h (m : Message.t) :
  appended h m = (if length h <? 100 then h else drop 1 h) ++ [m].
Proof.
  rewrite /appended /push /shift length_app /=.
  destruct (Nat.ltb_spec (length h) 100) as [Hlt|Hge].
  - by destruct (Nat.ltb_spec 100 (length h + 1)); [lia|].
  - destruct (Nat.ltb_spec 100 (length h + 1)); [|lia].
    destruct h; [simpl in Hge; lia|done].
Qed.

Lemma reachable_run w es w' out :
  reachable w → run w es = Some (w', out) → reachable w'.
Proof.
  revert w out. induction es as [|e es IH] => w out Hw /=.
  - by intros [= <- _].
  - destruct (step w e) as [[w1 out1]|] eqn:Hstep; [|done].
    destruct (run w1 es) as [[w2 out2]|] eqn:Hrun; [|done].
    intros [= <- _]. eapply IH; [|done]. by eapply reachable_step.
Qed.

(** C1: in every reachable state a room id is in the registry exactly when
    it has at least one member, and it has a history ring exactly when it
    is in the registry; a join to a room that is not there creates the
    member set and an empty ring together, and the leave of the only member
    deletes both. *)
Theorem room_registry_invariant w :
  reachable w →
  (∀ room,
     (is_Some (rooms w !! room) ↔ 0 < memberCount w room)
     ∧ (is_Some (messageHistory w !! room) ↔ is_Some (rooms w !! room)))
  ∧ (∀ id auth_username auth_room now1 now2 username room,
       sockets w !! id = None →
       admission auth_username auth_room = Accepted username room →
       rooms w !! room = None →
       ∃ w' out,
         step w (Connect id auth_username auth_room now1 now2)
         = Some (w', out)
         ∧ rooms w' !! room = Some [id]
         ∧ messageHistory w' !! room = Some [])
  ∧ (∀ id now socket,
       sockets w !! id = Some socket →
       rooms w !! Socket.room socket = Some [id] →
       ∃ w' out,
         step w (Disconnect id now) = Some (w', out)
         ∧ rooms w' !! Socket.room socket = None
         ∧ messageHistory w' !! Socket.room socket = None).
Proof.
  intros I%reachable_consistent. split_and!.
  - intros room. split; [|apply (inv_history _ I)].
    rewrite /memberCount. destruct (rooms w !! room) as [l|] eqn:Hl.
    + pose proof (inv_nonempty _ I _ _ Hl). destruct l; [done|].
      split; [simpl; lia|eauto].
    + split; [by intros [? ?]|lia].
  - intros id au ar now1 now2 username room Hfresh Hadm Hroom.
    eexists _, _. split; [by apply step_connect_run|].
    rewrite /after_join /opened /= Hroom !lookup_insert_eq. done.
  - intros id now socket Hs Hroom.
    destruct (step_disconnect_run w id now socket I Hs) as [_ Hstep].
    eexists _, _. split; [exact Hstep|].
    rewrite /after_leave (left_room_last id _ (closed id w)) //=.
    by rewrite !lookup_delete_eq.
Qed.

Lemma room_registry_invariant_witness :
  (is_Some (rooms one_user !! lit "general")
   ↔ 0 < memberCount one_user (lit "general"))
  ∧ (is_Some (messageHistory one_user !! lit "general")
     ↔ is_Some (rooms one_user !! lit "general")).
Proof.
  apply (proj1 (room_registry_invariant one_user one_user_reachable)).
Defined.

(** C5: a valid send from a connected socket in room R builds the message
    from the socket's username, the trimmed text, the second reading of the
    clock and R, puts it at the end of R's ring (dropping the oldest entry
    of a full ring), and then emits it once as [new_message] to the room;
    every member of R, the sender among them, is a recipient. *)
Theorem valid_send_broadcast w id socket field now1 now2 :
  reachable w → sockets w !! id = Some socket →
  body_of field ≠ [] → length (body_of field) ≤ 1000 →
  let room := Socket.room socket in
  let m := message_of socket field now1 now2 in
  ∃ history,
    messageHistory w !! room = Some history
    ∧ step w (SendMessage id (PValue field) now1 now2)
      = Some (set_messageHistory
                <[room := (if length history <? 100 then history
                           else drop 1 history) ++ [m]]> w,
              [Emission (ToRoom room) (in_room w room) (new_message m)])
    ∧ Message.username m = Socket.username socket
    ∧ Message.message m = body_of field
    ∧ Message.timestamp m = now2
    ∧ Message.room m = room
    ∧ id ∈ members w room
    ∧ (∀ i, i ∈ members w room → i ∈ in_room w room).
Proof.
  intros I%reachable_consistent Hs Hb Hlen room m.
  destruct (inv_socket _ I _ _ Hs) as (Hid & u & Hu & Hr & _).
  destruct (inv_user _ I _ _ Hu) as (l & Hl & Hin).
  assert (is_Some (messageHistory w !! room)) as [h Hh].
  { apply (inv_history _ I). rewrite /room -Hr. eauto. }
  exists h. split_and!; try done.
  - rewrite (step_send _ _ _ _ _ _ Hs).
    by rewrite (send_message_valid _ _ _ _ _ h) //= appended_eq.
  - by rewrite /members /room -Hr Hl.
  - intros i. by apply member_in_room.
Qed.

Lemma valid_send_broadcast_witness :
  ∃ history,
    messageHistory one_user !! lit "general" = Some history
    ∧ step one_user (SendMessage (lit "s1") (PValue (JStr (lit " hi "))) 20 21)
      = Some (set_messageHistory
                <[lit "general" :=
                    (if length history <? 100 then history
                     else drop 1 history)
                    ++ [message_of alice (JStr (lit " hi ")) 20 21]]> one_user,
              [Emission (ToRoom (lit "general"))
                 (in_room one_user (lit "general"))
                 (new_message (message_of alice (JStr (lit " hi ")) 20 21))]).
Proof.
  destruct (valid_send_broadcast one_user (lit "s1") alice
              (JStr (lit " hi ")) 20 21 one_user_reachable one_user_alice)
    as (history & Hh & Hstep & _).
  - by vm_compute.
  - vm_compute. lia.
  - exists history. split; [exact Hh|exact Hstep].
Defined.

Lemma consistent_listed w room : consistent w → listed w room.
Proof.
  intros I. rewrite /listed /members.
  destruct (rooms w !! room) as [l|] eqn:Hl; simpl.
  - split; [by apply (inv_nodup _ I room)|by apply roster_members].
  - split; [apply NoDup_nil_2|]. rewrite /roster Hl. constructor.
Qed.

Lemma members_after_leave id room w :
  members (after_leave id room w) room = set_delete id (members w room).
Proof.
  rewrite /after_leave /members /left_room /=.
  destruct (rooms w !! room) as [l|] eqn:Hl; [|by rewrite /= Hl].
  destruct (length (set_delete id l) =? 0) eqn:Hz; simpl.
  - apply length_zero_iff in Hz. by rewrite lookup_delete_eq Hz.
  - by rewrite lookup_insert_eq.
Qed.

Lemma not_in_room_after_leave id room room' w :
  id ∉ in_room (after_leave id room w) room'.
Proof.
  rewrite /after_leave /in_room /left_room /=.
  assert (id ∉ default ∅ (adapter_leave_all id (adapter w) !! room')) as H.
  { rewrite elem_of_adapter_leave_all. by intros [? _]. }
  destruct (rooms w !! room) as [l|]; [|done].
  by destruct (length (set_delete id l) =? 0).
Qed.

Lemma set_users_delete_absent id w :
  users w !! id = None → set_users (delete id) w = w.
Proof.
  intros H. destruct w as [us rs mh ss ad]. rewrite /set_users /=.
  by rewrite delete_id.
Qed.

(** C6: [disconnect] for a socket without a record changes nothing and
    emits nothing, so a second [disconnect] does nothing; with a record it
    removes the id from the member set of the record's room, deletes the
    room entry and its ring together when the set becomes empty, deletes
    the record, and emits [user_left] with the member count after the
    removal followed by [user_list]; in a reachable state both reach every
    remaining member of the room and not the socket that left. *)
Theorem disconnect_teardown :
  (∀ socket now w,
     users w !! Socket.id socket = None →
     disconnect socket now w = Ok tt w [])
  ∧ (∀ socket now now' w user,
       users w !! Socket.id socket = Some user →
       let id := Socket.id socket in
       let room := User.room user in
       ∃ w',
         disconnect socket now w
         = Ok tt w'
             [Emission (ToRoomExcept room id) (in_room w' room ∖ {[ id ]})
                (user_left (User.username user) now (memberCount w' room));
              Emission (ToRoom room) (in_room w' room)
                (user_list (roster w' room))]
         ∧ users w' = delete id (users w)
         ∧ (∀ l, rooms w !! room = Some l → set_delete id l = [] →
              rooms w' = delete room (rooms w)
              ∧ messageHistory w' = delete room (messageHistory w))
         ∧ (∀ l, rooms w !! room = Some l → set_delete id l ≠ [] →
              rooms w' = <[room := set_delete id l]> (rooms w)
              ∧ messageHistory w' = messageHistory w)
         ∧ disconnect socket now' w' = Ok tt w' [])
  ∧ (∀ w id now socket,
       reachable w → sockets w !! id = Some socket →
       let room := Socket.room socket in
       ∃ w' to_others to_room,
         step w (Disconnect id now)
         = Some (w',
             [Emission (ToRoomExcept room id) to_others
                (user_left (Socket.username socket) now (memberCount w' room));
              Emission (ToRoom room) to_room (user_list (roster w' room))])
         ∧ members w' room = set_delete id (members w room)
         ∧ users w' !! id = None
         ∧ (∀ i, i ∈ members w' room → i ∈ to_others ∧ i ∈ to_room)
         ∧ (id ∉ to_others) ∧ (id ∉ to_room)).
Proof.
  split_and!.
  - intros socket now w H.
    by rewrite disconnect_run /= H set_users_delete_absent.
  - intros socket now now' w user Hu id room.
    exists (set_users (delete id) (left_room id room w)).
    rewrite disconnect_run /= Hu /= roster_users_delete.
    split_and!; [done| | | |].
    + rewrite /left_room. destruct (rooms w !! room) as [l|]; [|done].
      by destruct (length (set_delete id l) =? 0).
    + intros l Hl Hd. by rewrite /left_room Hl Hd.
    + intros l Hl Hd. by rewrite (left_room_more _ _ l).
    + rewrite disconnect_run /=.
      assert (users (set_users (delete id) (left_room id room w))
                !! Socket.id socket = None) as Hgone.
      { rewrite /left_room. destruct (rooms w !! room) as [l|];
          [destruct (length (set_delete id l) =? 0)|];
          by rewrite /= lookup_delete_eq. }
      by rewrite Hgone set_users_delete_absent.
  - intros w id now socket Hw Hs room.
    pose proof (reachable_consistent _ Hw) as I.
    destruct (step_disconnect_run w id now socket I Hs) as [Hin Hstep].
    assert (consistent (after_leave id room w)) as I'.
    { by eapply consistent_step. }
    eexists _, _, _. split; [exact Hstep|]. split_and!.
    + apply members_after_leave.
    + rewrite /after_leave /left_room /=.
      destruct (rooms w !! room) as [l|];
        [destruct (length (set_delete id l) =? 0)|];
        by rewrite /= lookup_delete_eq.
    + intros i Hi. pose proof (member_in_room _ _ _ I' Hi) as Hr.
      split; [|done]. apply elem_of_difference. split; [done|].
      intros ->%elem_of_singleton.
      by apply (not_in_room_after_leave id room room w).
    + intros [_ H]%elem_of_difference. apply H. by apply elem_of_singleton.
    + apply not_in_room_after_leave.
Qed.

Lemma disconnect_teardown_witness :
  disconnect alice 30 init = Ok tt init []
  ∧ ∃ w' to_others to_room,
      step one_user (Disconnect (lit "s1") 30)
      = Some (w',
          [Emission (ToRoomExcept (lit "general") (lit "s1")) to_others
             (user_left (lit "Alice") 30 (memberCount w' (lit "general")));
           Emission (ToRoom (lit "general")) to_room
             (user_list (roster w' (lit "general")))])
      ∧ users w' !! lit "s1" = None.
Proof.
  split.
  - apply (proj1 disconnect_teardown). reflexivity.
  - destruct (proj2 (proj2 disconnect_teardown) one_user (lit "s1") 30%Z alice
                one_user_reachable one_user_alice)
      as (w' & o & r & Hstep & _ & Hgone & _).
    exists w', o, r. split; [exact Hstep|exact Hgone].
Defined.

Lemma members_after_join socket now1 w :
  consistent w → sockets w !! Socket.id socket = None →
  members (after_join socket now1 (opened socket w)) (Socket.room socket)
  = members w (Socket.room socket) ++ [Socket.id socket].
Proof.
  intros I Hfresh. rewrite /members /after_join /= lookup_insert_eq /=.
  apply set_add_fresh.
  destruct (rooms w !! Socket.room socket) as [l|] eqn:Hl;
    [|apply not_elem_of_nil].
  simpl. intros Hin.
  destruct (inv_member _ I _ _ _ Hl Hin) as (u & Hu & _).
  destruct (inv_user_socket _ I _ _ Hu) as [s Hs]. congruence.
Qed.

(** C7: [broadcastUserList] returns the state it was given and emits one
    [user_list]; the list is empty for a room that is not in the registry;
    in a reachable state it has exactly one entry per member of the room,
    built from that member's record, in the order of the member set; a
    join ends with the [user_list] of the room after the join, in which the
    new id is the last member, and a leave with the [user_list] of the room
    after the leave, from whose member set the id is gone. *)
Theorem user_list_reflects_members :
  (∀ room w,
     broadcastUserList room w
     = Ok tt w [Emission (ToRoom room) (in_room w room)
                  (user_list (roster w room))])
  ∧ (∀ room w, rooms w !! room = None → roster w room = [])
  ∧ (∀ w room, reachable w → listed w room)
  ∧ (∀ w id auth_username auth_room now1 now2 username room,
       reachable w → sockets w !! id = None →
       admission auth_username auth_room = Accepted username room →
       ∃ w' e1 e2,
         step w (Connect id auth_username auth_room now1 now2)
         = Some (w', [e1; e2;
                      Emission (ToRoom room) (in_room w' room)
                        (user_list (roster w' room))])
         ∧ members w' room = members w room ++ [id]
         ∧ listed w' room)
  ∧ (∀ w id now socket,
       reachable w → sockets w !! id = Some socket →
       let room := Socket.room socket in
       ∃ w' e1,
         step w (Disconnect id now)
         = Some (w', [e1;
                      Emission (ToRoom room) (in_room w' room)
                        (user_list (roster w' room))])
         ∧ members w' room = set_delete id (members w room)
         ∧ listed w' room).
Proof.
  split_and!.
  - apply broadcastUserList_run.
  - intros room w H. by rewrite /roster H.
  - intros w room I%reachable_consistent. by apply consistent_listed.
  - intros w id au ar now1 now2 username room Hw Hfresh Hadm.
    pose proof (reachable_consistent _ Hw) as I.
    pose proof (step_connect_run w id au ar now1 now2 username room
                  Hfresh Hadm) as Hstep.
    eexists _, _, _. split; [exact Hstep|]. split.
    + by apply (members_after_join (Socket.mk id username room)).
    + apply consistent_listed. by eapply consistent_step.
  - intros w id now socket Hw Hs room.
    pose proof (reachable_consistent _ Hw) as I.
    destruct (step_disconnect_run w id now socket I Hs) as [_ Hstep].
    eexists _, _. split; [exact Hstep|]. split.
    + apply members_after_leave.
    + apply consistent_listed. by eapply consistent_step.
Qed.

Lemma user_list_reflects_members_witness :
  listed one_user (lit "general")
  ∧ ∃ w' e1,
      step one_user (Disconnect (lit "s1") 30)
      = Some (w', [e1;
                   Emission (ToRoom (lit "general"))
                     (in_room w' (lit "general"))
                     (user_list (roster w' (lit "general")))])
      ∧ listed w' (lit "general").
Proof.
  destruct user_list_reflects_members as (_ & _ & H3 & _ & H5).
  split.
  - apply (H3 one_user (lit "general") one_user_reachable).
  - destruct (H5 one_user (lit "s1") 30%Z alice one_user_reachable
                one_user_alice) as (w' & e1 & Hstep & _ & Hl).
    exists w', e1. split; [exact Hstep|exact Hl].
Defined.

(** * A room that was destroyed *)

Lemma step_room_absent w e w' out room :
  consistent w → rooms w !! room = None → ¬ joins e room →
  step w e = Some (w', out) → rooms w' !! room = None.
Proof.
  intros I Hroom Hjoin.
  destruct e as [id au ar n1 n2|id data n1 n2|id|id|id n]; simpl.
  - destruct (sockets w !! id) eqn:Hs; [done|].
    destruct (admission au ar) as [u r| |] eqn:Ha;
      [|by intros [= <- _]|done].
    rewrite connection_run /=. intros [= <- _].
    rewrite /after_join /= lookup_insert_ne //.
    intros ->. apply Hjoin. by exists u.
  - destruct (sockets w !! id) as [s|] eqn:Hs; [simpl|done].
    destruct (send_message_cases s data n1 n2 w)
      as [[o ->]|(f & h & -> & Hb & Hlen & Hh)].
    + by intros [= <- _].
    + rewrite (send_message_valid _ _ _ _ _ h) //=. by intros [= <- _].
  - destruct (sockets w !! id) as [s|]; [simpl|done]. by intros [= <- _].
  - destruct (sockets w !! id) as [s|]; [simpl|done]. by intros [= <- _].
  - destruct (sockets w !! id) as [s|] eqn:Hs; [simpl|done].
    destruct (inv_socket _ I _ _ Hs) as (Hid & u & Hu & _).
    rewrite disconnect_run /= Hid Hu. intros [= <- _].
    destruct (inv_user _ I _ _ Hu) as (l & Hl & _).
    rewrite /left_room /= Hl.
    assert (User.room u ≠ room) as Hne by (intros Heq; congruence).
    destruct (length (set_delete id l) =? 0); simpl.
    + by rewrite lookup_delete_ne.
    + by rewrite lookup_insert_ne.
Qed.

Lemma run_room_absent w es w' out room :
  reachable w → rooms w !! room = None →
  Forall (λ e, ¬ joins e room) es →
  run w es = Some (w', out) → reachable w' ∧ rooms w' !! room = None.
Proof.
  revert w out. induction es as [|e es IH] => w out Hw Hroom Hes /=.
  - by intros [= <- _].
  - apply Forall_cons in Hes as [He Hes].
    destruct (step w e) as [[w1 out1]|] eqn:Hstep; [|done].
    destruct (run w1 es) as [[w2 out2]|] eqn:Hrun; [|done].
    intros [= <- _]. eapply IH; [| |done|done].
    + by eapply reachable_step.
    + eapply step_room_absent; [by apply reachable_consistent|done..].
Qed.

(** C8: when the only member of room R leaves, whatever happens afterwards
    short of a join to R, the next connection accepted into R is sent an
    empty [message_history]. *)
Theorem no_history_resurrection
    w id now socket w1 out1 es w2 out2 j auth_username auth_room now1 now2
    username :
  reachable w → sockets w !! id = Some socket →
  rooms w !! Socket.room socket = Some [id] →
  step w (Disconnect id now) = Some (w1, out1) →
  Forall (λ e, ¬ joins e (Socket.room socket)) es →
  run w1 es = Some (w2, out2) →
  sockets w2 !! j = None →
  admission auth_username auth_room = Accepted username (Socket.room socket) →
  ∃ w3 e2 e3,
    step w2 (Connect j auth_username auth_room now1 now2)
    = Some (w3, [Emission (ToSocket j) {[ j ]} (message_history []); e2; e3]).
Proof.
  intros Hw Hs Hlast Hstep Hes Hrun Hfresh Hadm.
  set (room := Socket.room socket) in *.
  pose proof (reachable_consistent _ Hw) as I.
  assert (rooms w1 !! room = None) as Hgone.
  { destruct (step_disconnect_run w id now socket I Hs) as [_ Hstep'].
    rewrite Hstep' in Hstep. injection Hstep as <- _.
    rewrite /after_leave (left_room_last id _ (closed id w)) //=.
    by rewrite lookup_delete_eq. }
  assert (reachable w1) as Hw1 by (by eapply reachable_step).
  destruct (run_room_absent _ _ _ _ _ Hw1 Hgone Hes Hrun) as [Hw2 Hgone2].
  pose proof (step_connect_run w2 j _ _ now1 now2 _ _ Hfresh Hadm) as Hc.
  eexists _, _, _. rewrite Hc. do 3 f_equal.
  by rewrite /after_join /opened /= Hgone2 lookup_insert_eq.
Qed.

Lemma said_hi_reachable : reachable said_hi.
Proof.
  eapply reachable_step; [apply one_user_reachable|].
  by instantiate (2 := SendMessage (lit "s1") (PValue (JStr (lit "hi"))) 20 21).
Qed.

Lemma no_history_resurrection_witness :
  ∃ w3 e2 e3,
    step (default init (fst <$> (run (after_leave (lit "s1") (lit "general") said_hi) bob_elsewhere)))
         (Connect (lit "s3") (JStr (lit "Carol")) JNull 60 61)
    = Some (w3, [Emission (ToSocket (lit "s3")) {[ lit "s3" ]}
                   (message_history []); e2; e3]).
Proof.
  eapply (no_history_resurrection said_hi (lit "s1") 30 alice
            (after_leave (lit "s1") (lit "general") said_hi) _ bob_elsewhere
            _ _ (lit "s3") (JStr (lit "Carol")) JNull 60 61 (lit "Carol")).
  - exact said_hi_reachable.
  - by vm_compute.
  - by vm_compute.
  - apply (step_disconnect_run said_hi (lit "s1") 30 alice
             (reachable_consistent _ said_hi_reachable)). by vm_compute.
  - apply Forall_cons. split; [intros [u Hu]; by vm_compute in Hu|].
    apply Forall_cons. split; [by intros []|]. apply Forall_nil_2.
  - vm_compute. reflexivity.
  - by vm_compute.
  - by vm_compute.
Defined.

(** * The history ring under a run of sends *)

Section Slices.
Context {A : Type}.
Implicit Types a b : list A.

Lemma slice_last_all n a : length a ≤ n → slice_last n a = a.
Proof.
  intros H. rewrite /slice_last.
  by replace (length a - n) with 0 by lia.
Qed.

Lemma slice_last_app_ge n a b :
  n ≤ length b → slice_last n (a ++ b) = slice_last n b.
Proof.
  intros H. rewrite /slice_last length_app drop_app_ge.
  - lia.
  - f_equal. lia.
Qed.

Lemma slice_last_twice m n a :
  m ≤ n → slice_last m (slice_last n a) = slice_last m a.
Proof.
  intros H. rewrite /slice_last length_drop drop_drop. f_equal. lia.
Qed.

Lemma slice_last_app_slice n a b :
  slice_last n (slice_last n a ++ b) = slice_last n (a ++ b).
Proof.
  destruct (le_lt_dec (length a) n) as [Hle|Hlt].
  - by rewrite (slice_last_all n a).
  - rewrite /slice_last !length_app length_drop.
    replace (length a + length b - n)
      with (length a - n + length b) by lia.
    rewrite -(drop_drop (a ++ b) (length b) (length a - n)).
    rewrite (drop_app_le a b (length a - n)); [lia|].
    f_equal. lia.
Qed.

Lemma length_slice_last n a : length (slice_last n a) ≤ n.
Proof. rewrite /slice_last length_drop. lia. Qed.

End Slices.

Lemma appended_slice h (m : Message.t) :
  length h ≤ 100 → appended h m = slice_last 100 (h ++ [m]).
Proof.
  intros H. rewrite appended_eq /slice_last length_app /=.
  destruct (Nat.ltb_spec (length h) 100) as [Hlt|Hge].
  - by replace (length h + 1 - 100) with 0 by lia.
  - replace (length h + 1 - 100) with 1 by lia.
    rewrite drop_app_le //. lia.
Qed.

Lemma foldl_appended h (ms : list Message.t) :
  length h ≤ 100 → foldl appended h ms = slice_last 100 (h ++ ms).
Proof.
  revert h. induction ms as [|m ms IH] => h H /=.
  - by rewrite app_nil_r slice_last_all.
  - rewrite IH; [by apply length_appended|].
    rewrite appended_slice // slice_last_app_slice.
    by rewrite -app_assoc.
Qed.

Lemma set_messageHistory_same room h w :
  messageHistory w !! room = Some h →
  set_messageHistory <[room := h]> w = w.
Proof.
  intros H. destruct w as [us rs mh ss ad].
  by rewrite /set_messageHistory /= insert_id.
Qed.

Lemma run_sends w room h xs :
  Forall (valid_send w room) xs → messageHistory w !! room = Some h →
  ∃ out,
    run w (send_event <$> xs)
    = Some (set_messageHistory
              <[room := foldl appended h (sent <$> xs)]> w, out).
Proof.
  revert w h. induction xs as [|x xs IH] => w h Hxs Hh.
  - exists []. by rewrite /= set_messageHistory_same.
  - apply Forall_cons in Hxs as [(Hs & Hr & Hb & Hlen) Hxs].
    set (w1 := set_messageHistory <[room := appended h (sent x)]> w).
    destruct (IH w1 (appended h (sent x))) as [out Hrun].
    { eapply Forall_impl; [exact Hxs|]. by intros y. }
    { by rewrite /w1 /= lookup_insert_eq. }
    eexists. rewrite fmap_cons /= Hs /=.
    rewrite (send_message_valid _ _ _ _ _ h) //=; [by rewrite Hr|].
    rewrite Hr. fold w1. rewrite -/(sent x) Hrun.
    by rewrite /w1 /set_messageHistory /= insert_insert_eq.
Qed.

(** C2: start from a reachable state and let connected sockets of room R
    make more than 100 valid sends.  Before each send the ring holds at
    most 100 messages; the send puts its message at the end, dropping
    exactly the first entry when the ring held 100, and the ring again
    holds at most 100.  After all of them the ring is the last 100 messages
    in send order, and a connection then accepted into R is sent the last
    50 of them, latest last. *)
Theorem history_ring_bounded w room xs :
  reachable w → Forall (valid_send w room) xs → 100 < length xs →
  (∀ k x, xs !! k = Some x →
     ∃ wk outk hk w1 out1,
       run w (send_event <$> take k xs) = Some (wk, outk)
       ∧ messageHistory wk !! room = Some hk
       ∧ length hk ≤ 100
       ∧ step wk (send_event x) = Some (w1, out1)
       ∧ messageHistory w1 !! room
         = Some ((if length hk <? 100 then hk else drop 1 hk) ++ [sent x])
       ∧ length ((if length hk <? 100 then hk else drop 1 hk) ++ [sent x])
         ≤ 100)
  ∧ ∃ w' out,
      run w (send_event <$> xs) = Some (w', out)
      ∧ messageHistory w' !! room = Some (slice_last 100 (sent <$> xs))
      ∧ ∀ j auth_username auth_room now1 now2 username,
          sockets w' !! j = None →
          admission auth_username auth_room = Accepted username room →
          ∃ w'' e2 e3,
            step w' (Connect j auth_username auth_room now1 now2)
            = Some (w'',
                [Emission (ToSocket j) {[ j ]}
                   (message_history (slice_last 50 (sent <$> xs)));
                 e2; e3]).
Proof.
  intros Hw Hxs Hlen. pose proof (reachable_consistent _ Hw) as I.
  assert (∃ l h0, rooms w !! room = Some l
                  ∧ messageHistory w !! room = Some h0 ∧ length h0 ≤ 100)
    as (l & h0 & Hl & Hh0 & Hlen0).
  { destruct xs as [|x xs']; [simpl in Hlen; lia|].
    apply Forall_cons in Hxs as [(Hs & Hr & _) _].
    destruct (inv_socket _ I _ _ Hs) as (_ & u & Hu & Hru & _).
    destruct (inv_user _ I _ _ Hu) as (l & Hl & _).
    rewrite Hru Hr in Hl.
    assert (is_Some (messageHistory w !! room)) as [h0 Hh0].
    { apply (inv_history _ I). eauto. }
    exists l, h0. split_and!; [done..|]. by apply (inv_ring _ I room). }
  split.
  - intros k x Hk.
    destruct (run_sends w room h0 (take k xs)) as [outk Hrun];
      [by apply Forall_take|done|].
    pose proof (proj1 (Forall_lookup _ _) Hxs k x Hk)
      as (Hs & Hr & Hb & Hlenb).
    set (hk := foldl appended h0 (sent <$> take k xs)) in *.
    set (wk := set_messageHistory <[room := hk]> w) in *.
    assert (length hk ≤ 100) as Hlenk.
    { rewrite /hk foldl_appended //. apply length_slice_last. }
    assert (messageHistory wk !! room = Some hk) as Hhk.
    { by rewrite /wk /= lookup_insert_eq. }
    eexists wk, outk, hk, _, _. split_and!; [done..| | |].
    + rewrite /send_event /= Hs /=.
      rewrite (send_message_valid _ _ _ _ _ hk) //. by rewrite Hr.
    + by rewrite /= Hr lookup_insert_eq -/(sent x) appended_eq.
    + rewrite -appended_eq. by apply length_appended.
  - destruct (run_sends w room h0 xs) as [out Hrun]; [done..|].
    assert (foldl appended h0 (sent <$> xs) = slice_last 100 (sent <$> xs))
      as Hring.
    { rewrite foldl_appended // slice_last_app_ge // length_fmap. lia. }
    rewrite Hring in Hrun.
    eexists _, out. split; [exact Hrun|].
    split; [by rewrite /= lookup_insert_eq|].
    intros j au ar now1 now2 username Hfresh Hadm.
    rewrite (step_connect_run _ j au ar now1 now2 username room) //.
    eexists _, _, _. do 3 f_equal.
    rewrite /after_join /opened /= Hl lookup_insert_eq /=.
    by rewrite slice_last_twice; [lia|].
Qed.

Lemma history_ring_bounded_witness :
  ∃ w' out,
    run one_user (send_event <$> flood) = Some (w', out)
    ∧ messageHistory w' !! lit "general"
      = Some (slice_last 100 (sent <$> flood)).
Proof.
  destruct (history_ring_bounded one_user (lit "general") flood)
    as (_ & w' & out & Hrun & Hring & _).
  - exact one_user_reachable.
  - apply Forall_replicate. split_and!; [by vm_compute..|vm_compute; lia].
  - vm_compute. lia.
  - exists w', out. split; [exact Hrun|exact Hring].
Defined.

(** * Typing signals *)

Lemma two_users_step :
  ∃ out, step one_user bob_joins = Some (two_users, out).
Proof.
  eexists.
  by apply (step_connect_run one_user (lit "s2") (JStr (lit "Bob"))
              (JStr (lit "general")) 40 41 (lit "Bob") (lit "general")).
Qed.

Lemma two_users_reachable : reachable two_users.
Proof.
  destruct two_users_step as [out H].
  eapply reachable_step; [apply one_user_reachable|exact H].
Qed.

Lemma two_users_alice : sockets two_users !! lit "s1" = Some alice.
Proof. by vm_compute. Qed.

Lemma two_users_bob : sockets two_users !! lit "s2" = Some bob.
Proof. by vm_compute. Qed.

(** X1: [typing] and [stop_typing] from a connected socket leave the state
    as it is and emit one event carrying the socket's username, addressed
    to its room without the socket; in a reachable state every other member
    of the room receives it and the socket itself does not. *)
Theorem typing_signals w id socket :
  reachable w → sockets w !! id = Some socket →
  let room := Socket.room socket in
  let others := in_room w room ∖ {[ id ]} in
  step w (Typing id)
  = Some (w, [Emission (ToRoomExcept room id) others
                (user_typing (Socket.username socket))])
  ∧ step w (StopTyping id)
    = Some (w, [Emission (ToRoomExcept room id) others
                  (user_stop_typing (Socket.username socket))])
  ∧ (∀ i, i ∈ members w room → i ≠ id → i ∈ others)
  ∧ id ∉ others.
Proof.
  intros I%reachable_consistent Hs room others.
  destruct (inv_socket _ I _ _ Hs) as (Hid & _).
  split_and!.
  - by rewrite /step Hs /= /typing /emit /= Hid.
  - by rewrite /step Hs /= /stop_typing /emit /= Hid.
  - intros i Hi Hne. apply elem_of_difference. split.
    + by apply member_in_room.
    + by intros ->%elem_of_singleton.
  - intros [_ H]%elem_of_difference. apply H. by apply elem_of_singleton.
Qed.

Lemma typing_signals_witness :
  step two_users (Typing (lit "s2"))
  = Some (two_users,
      [Emission (ToRoomExcept (lit "general") (lit "s2"))
         (in_room two_users (lit "general") ∖ {[ lit "s2" ]})
         (user_typing (lit "Bob"))])
  ∧ lit "s1" ∈ in_room two_users (lit "general") ∖ {[ lit "s2" ]}.
Proof.
  destruct (typing_signals two_users (lit "s2") bob two_users_reachable
              two_users_bob) as (H1 & _ & H3 & _).
  split; [exact H1|]. apply H3; [|by vm_compute].
  apply list_elem_of_In. vm_compute. by left.
Defined.

(** * Handlers run to completion *)

Lemma send_message_completes socket data now1 now2 w :
  ∃ w' out, send_message socket data now1 now2 w = Ok tt w' out.
Proof.
  destruct (send_message_cases socket data now1 now2 w)
    as [[out ->]|(field & h & -> & Hb & Hlen & Hh)]; [by eexists _, _|].
  eexists _, _. by apply (send_message_valid _ _ _ _ _ h).
Qed.

Lemma disconnect_completes socket now w :
  ∃ w' out, disconnect socket now w = Ok tt w' out.
Proof.
  rewrite disconnect_run /=.
  destruct (users w !! Socket.id socket); by eexists _, _.
Qed.

(** X2: no handler lets an exception out, in any state and for any payload:
    [connection], [send_message] (whose [try] block can throw on a missing
    payload or a missing ring), [disconnect] and [broadcastUserList] all
    return normally, so every event of a connected socket is handled. *)
Theorem handlers_complete :
  (∀ socket now1 now2 w,
     ∃ w' out, connection socket now1 now2 w = Ok tt w' out)
  ∧ (∀ socket data now1 now2 w,
       ∃ w' out, send_message socket data now1 now2 w = Ok tt w' out)
  ∧ (∀ socket now w, ∃ w' out, disconnect socket now w = Ok tt w' out)
  ∧ (∀ w id socket, sockets w !! id = Some socket →
       (∀ data now1 now2, is_Some (step w (SendMessage id data now1 now2)))
       ∧ is_Some (step w (Typing id))
       ∧ is_Some (step w (StopTyping id))
       ∧ (∀ now, is_Some (step w (Disconnect id now)))).
Proof.
  split_and!.
  - intros. eexists _, _. apply connection_run.
  - apply send_message_completes.
  - apply disconnect_completes.
  - intros w id socket Hs. split_and!.
    + intros data now1 now2. rewrite (step_send _ _ _ _ _ _ Hs).
      by destruct (send_message_completes socket data now1 now2 w)
        as (w' & out & ->).
    + by rewrite /step Hs.
    + by rewrite /step Hs.
    + intros now. rewrite (step_disconnect _ _ _ _ Hs).
      by destruct (disconnect_completes socket now (closed id w))
        as (w' & out & ->).
Qed.

Lemma handlers_complete_witness :
  is_Some (step one_user (SendMessage (lit "s1") PNullish 20 21))
  ∧ is_Some (step one_user (Disconnect (lit "s1") 30)).
Proof.
  destruct (proj2 (proj2 (proj2 handlers_complete)) one_user (lit "s1") alice
              one_user_alice) as (H1 & _ & _ & H4).
  split; [apply H1|apply H4].
Defined.

(** * What a send leaves alone *)

Lemma send_message_outcomes socket data now1 now2 w :
  send_message socket data now1 now2 w = Ok tt w []
  ∨ (∃ message,
       send_message socket data now1 now2 w
       = Ok tt w [to_sender socket (error message)])
  ∨ (∃ field history,
       data = PValue field
       ∧ messageHistory w !! Socket.room socket = Some history
       ∧ send_message socket data now1 now2 w
         = Ok tt
             (set_messageHistory
                <[Socket.room socket :=
                    appended history (message_of socket field now1 now2)]> w)
             [Emission (ToRoom (Socket.room socket))
                (in_room w (Socket.room socket))
                (new_message (message_of socket field now1 now2))]).
Proof.
  destruct data as [|field]; [right; left; by eexists|].
  destruct (decide (body_of field = [])) as [Hb|Hb].
  { left. by apply send_message_blank. }
  destruct (le_lt_dec (length (body_of field)) 1000) as [Hlen|Hlen];
    last first.
  { right; left. eexists. by apply send_message_too_long. }
  destruct (messageHistory w !! Socket.room socket) as [h|] eqn:E.
  - right; right. exists field, h. split_and!; [done..|].
    by apply send_message_valid.
  - right; left. eexists. by apply send_message_no_ring.
Qed.

Lemma step_send_completes w id socket data now1 now2 :
  sockets w !! id = Some socket →
  ∃ w' out, step w (SendMessage id data now1 now2) = Some (w', out).
Proof.
  intros Hs. rewrite (step_send _ _ _ _ _ _ Hs).
  destruct (send_message_completes socket data now1 now2 w)
    as (w' & out & ->). by eexists _, _.
Qed.

(** X3: whatever the payload, a [send_message] changes neither the
    presence records, nor the member sets, nor the transport's tables; the
    ring of every other room is as before, no ring is created or deleted,
    and it emits nothing, or one [error] to the sender, or one
    [new_message] to the sender's room. *)
Theorem send_touches_one_ring w id socket data now1 now2 w' out :
  sockets w !! id = Some socket →
  step w (SendMessage id data now1 now2) = Some (w', out) →
  users w' = users w ∧ rooms w' = rooms w ∧ sockets w' = sockets w
  ∧ adapter w' = adapter w
  ∧ (∀ r, r ≠ Socket.room socket →
       messageHistory w' !! r = messageHistory w !! r)
  ∧ (∀ r, is_Some (messageHistory w' !! r) ↔ is_Some (messageHistory w !! r))
  ∧ (out = []
     ∨ (∃ message, out = [to_sender socket (error message)])
     ∨ (∃ m, out = [Emission (ToRoom (Socket.room socket))
                      (in_room w (Socket.room socket)) (new_message m)])).
Proof.
  intros Hs. rewrite (step_send _ _ _ _ _ _ Hs).
  destruct (send_message_outcomes socket data now1 now2 w)
    as [->|[[msg ->]|(field & h & -> & Hh & ->)]]; intros [= <- <-].
  - split_and!; try done. by left.
  - split_and!; try done. right; left. by exists msg.
  - split_and!; try done.
    + intros r Hr. by rewrite /= lookup_insert_ne.
    + intros r. rewrite /= lookup_insert_is_Some.
      split; [intros [<-|[_ ?]]; eauto|].
      destruct (decide (Socket.room socket = r)); auto.
    + right; right. by eexists.
Qed.

Lemma send_touches_one_ring_witness :
  ∃ w' out,
    step one_user (SendMessage (lit "s1") (PValue (JStr (lit "hi"))) 20 21)
    = Some (w', out)
    ∧ users w' = users one_user ∧ rooms w' = rooms one_user.
Proof.
  destruct (step_send_completes one_user (lit "s1") alice
              (PValue (JStr (lit "hi"))) 20 21 one_user_alice)
    as (w' & out & Hstep).
  exists w', out. split; [exact Hstep|].
  destruct (send_touches_one_ring one_user (lit "s1") alice _ _ _ w' out
              one_user_alice Hstep) as (H1 & H2 & _).
  by split.
Defined.

(** * What the middleware lets through *)

Lemma trim_trimmed s : trimmed (trim s).
Proof. split; [apply trim_starts|apply trim_ends]. Qed.

Lemma trim_idemp s : trim (trim s) = trim s.
Proof. apply trim_id; [apply trim_starts|apply trim_ends]. Qed.

Lemma lit_general_trimmed : trim (lit "general") = lit "general".
Proof. by vm_compute. Qed.

Lemma normalized_room_trimmed auth_room r :
  normalized_room auth_room = Some r → trimmed r.
Proof.
  rewrite /normalized_room /js_or.
  destruct (truthy auth_room); [destruct auth_room; try done|];
    simpl; intros [= <-]; apply trim_trimmed.
Qed.

Lemma admission_accepted auth_username auth_room username room :
  admission auth_username auth_room = Accepted username room →
  ∃ s, auth_username = JStr s ∧ username = trim s ∧ length s ≤ 50
       ∧ normalized_room auth_room = Some room
       ∧ name_ok username ∧ trimmed room.
Proof.
  destruct auth_username as [| |s|[] shown]; try done.
  destruct (decide (trim s = [])) as [Hs|Hs]; [by rewrite admission_blank|].
  destruct (le_lt_dec (length s) 50) as [Hlen|Hlen];
    [|by rewrite admission_too_long].
  rewrite admission_string //.
  destruct (normalized_room auth_room) as [r|] eqn:Hr; [|done].
  intros [= <- <-]. exists s. split_and!; try done.
  - split_and!; [|pose proof (trim_length s); lia
                 |apply trim_starts|apply trim_ends].
    destruct (trim s); [done|simpl; lia].
  - by eapply normalized_room_trimmed.
Qed.

(** X4: a connection is accepted only for a string username; the username
    it is given is the trimmed one, has between 1 and 50 code units and
    neither starts nor ends with whitespace, and the room it is given
    neither starts nor ends with whitespace. *)
Theorem accepted_is_normalized auth_username auth_room username room :
  admission auth_username auth_room = Accepted username room →
  (∃ s, auth_username = JStr s ∧ username = trim s ∧ length s ≤ 50)
  ∧ 1 ≤ length username ∧ length username ≤ 50
  ∧ starts_ws username = false ∧ ends_ws username = false
  ∧ starts_ws room = false ∧ ends_ws room = false.
Proof.
  intros (s & H1 & H2 & H3 & _ & (?&?&?&?) & (?&?))%admission_accepted.
  split_and!; try done. by exists s.
Qed.

Lemma accepted_is_normalized_witness :
  1 ≤ length (lit "Alice") ∧ length (lit "Alice") ≤ 50
  ∧ starts_ws (lit "lobby") = false.
Proof.
  destruct (accepted_is_normalized (JStr (lit "  Alice ")) (JStr (lit " lobby"))
              (lit "Alice") (lit "lobby")) as (_ & H1 & H2 & _ & _ & H3 & _).
  - by vm_compute.
  - split_and!; [exact H1|exact H2|exact H3].
Defined.

(** X5: normalising is idempotent: presenting the accepted username and
    room again is accepted with the same username, and with the same room
    unless that room is the empty string, which is replaced by
    ["general"]. *)
Theorem admission_idempotent auth_username auth_room username room :
  admission auth_username auth_room = Accepted username room →
  admission (JStr username) (JStr room)
  = Accepted username (if bool_decide (room = []) then lit "general" else room).
Proof.
  intros (s & _ & -> & Hlen & _ & (Hne & _) & (Hr1 & Hr2))%admission_accepted.
  rewrite admission_string.
  - rewrite trim_idemp. intros H. rewrite H /= in Hne. lia.
  - pose proof (trim_length s). lia.
  - rewrite trim_idemp. case_bool_decide as Hroom.
    + subst. by rewrite normalized_room_falsy.
    + by rewrite normalized_room_string // (trim_id _ Hr1 Hr2).
Qed.

Lemma admission_idempotent_witness :
  admission (JStr (lit "Alice")) (JStr (lit "lobby"))
  = Accepted (lit "Alice") (lit "lobby").
Proof.
  apply (admission_idempotent (JStr (lit "  Alice ")) (JStr (lit " lobby"))
           (lit "Alice") (lit "lobby")).
  by vm_compute.
Defined.

(** * Message ids *)

Lemma lit_inj s1 s2 : lit s1 = lit s2 → s1 = s2.
Proof.
  rewrite /lit. revert s2.
  induction s1 as [|a s1 IH] => -[|b s2] //= [= Ha Hs].
  f_equal; [|by apply IH].
  rewrite -(ascii_N_embedding a) -(ascii_N_embedding b). by rewrite Ha.
Qed.

Lemma message_id_eq id1 id2 now1 now2 :
  length id1 = length id2 →
  message_id id1 now1 = message_id id2 now2 → id1 = id2 ∧ now1 = now2.
Proof.
  rewrite /message_id => Hlen H.
  apply app_inj_1 in H as [-> H]; [|done]. split; [done|].
  apply app_inv_head in H. apply lit_inj in H. by apply (inj pretty).
Qed.

(** X6: two messages built by one socket at different clock readings have
    different ids, and so have two messages built by sockets with different
    ids of the same length: ids collide only for the same socket in the
    same millisecond. *)
Theorem message_ids_differ id1 id2 now1 now2 :
  length id1 = length id2 → id1 ≠ id2 ∨ now1 ≠ now2 →
  message_id id1 now1 ≠ message_id id2 now2.
Proof.
  intros Hlen Hdiff [Hid Hnow]%message_id_eq; [|done].
  by destruct Hdiff.
Qed.

Lemma message_ids_differ_witness :
  message_id (lit "s1") 20 ≠ message_id (lit "s1") 21
  ∧ message_id (lit "s1") 20 ≠ message_id (lit "s2") 20.
Proof.
  split; apply message_ids_differ; try reflexivity.
  - right. discriminate.
  - left. discriminate.
Defined.

(** * One event as a transition *)

Lemma step_transition w e w' out :
  consistent w → step w e = Some (w', out) → transition w e w' out.
Proof.
  intros I. destruct e as [id au ar n1 n2|id data n1 n2|id|id|id n].
  - rewrite /step. destruct (sockets w !! id) eqn:Hs; [done|].
    destruct (admission au ar) as [u r|msg|] eqn:Ha; [| |done].
    + rewrite connection_run /=. intros [= <- <-]. by apply tr_accept.
    + intros [= <- <-]. by eapply tr_reject.
  - destruct (sockets w !! id) as [s|] eqn:Hs; [|by rewrite /step Hs].
    rewrite (step_send _ _ _ _ _ _ Hs).
    destruct (data) as [|field].
    { rewrite send_message_nullish. intros [= <- <-].
      by apply tr_send_error. }
    destruct (decide (body_of field = [])) as [Hb|Hb].
    { rewrite send_message_blank //. intros [= <- <-].
      by eapply tr_send_dropped. }
    destruct (le_lt_dec (length (body_of field)) 1000) as [Hlen|Hlen];
      last first.
    { rewrite send_message_too_long //. intros [= <- <-].
      by apply tr_send_error. }
    destruct (messageHistory w !! Socket.room s) as [h|] eqn:E.
    + rewrite (send_message_valid _ _ _ _ _ h) //. intros [= <- <-].
      by apply tr_send.
    + rewrite send_message_no_ring //. intros [= <- <-].
      by apply tr_send_error.
  - rewrite /step. destruct (sockets w !! id) as [s|] eqn:Hs; [|done].
    intros [= <- <-]. by apply tr_typing.
  - rewrite /step. destruct (sockets w !! id) as [s|] eqn:Hs; [|done].
    intros [= <- <-]. by apply tr_stop_typing.
  - destruct (sockets w !! id) as [s|] eqn:Hs; [|by rewrite /step Hs].
    destruct (step_disconnect_run w id n s I Hs) as [_ ->].
    intros [= <- <-].
    destruct (inv_socket _ I _ _ Hs) as [Hid _].
    rewrite /leave_events /=. by apply tr_leave.
Qed.

Lemma reachable_ind_transition (P : world → Prop) :
  P init →
  (∀ w e w' out, reachable w → P w → transition w e w' out → P w') →
  ∀ w, reachable w → P w.
Proof.
  intros Hinit Hstep w. induction 1 as [|w e w' out Hw IH Hs]; [done|].
  eapply Hstep; [done..|].
  apply step_transition; [by apply reachable_consistent|done].
Qed.

(** * What is stored *)

Lemma reachable_tidy w : reachable w → tidy w.
Proof.
  revert w. apply reachable_ind_transition.
  { split; intros *; by rewrite /init /= lookup_empty. }
  intros w e w' out Hw T Htr.
  destruct Htr as
    [w id au ar n1 n2 u r Hfresh Hadm|w|w|w
    |w id s field h n1 n2 Hs Hb Hlen Hh|w|w
    |w id now s Hs]; try done.
  - apply admission_accepted in Hadm as (_ & _ & _ & _ & _ & Hu & Hr).
    split; rewrite /after_join /opened /=.
    + intros i s [[<- <-]|[_ Hi]]%lookup_insert_Some; [done|].
      by apply (tidy_socket _ T i).
    + intros i s [[<- <-]|[_ Hi]]%lookup_insert_Some; [done|].
      by apply (tidy_user _ T i).
    + intros r' h'. destruct (rooms w !! r); [apply (tidy_ring _ T)|].
      intros [[<- <-]|[_ Hi]]%lookup_insert_Some; [constructor|].
      by apply (tidy_ring _ T r').
  - split; rewrite /=; [apply T..|].
    intros r' h' [[<- <-]|[_ Hi]]%lookup_insert_Some;
      [|by apply (tidy_ring _ T r')].
    rewrite appended_eq. apply Forall_app. split.
    + pose proof (tidy_ring _ T _ _ Hh).
      destruct (length h <? 100); [done|by apply Forall_drop].
    + apply Forall_singleton. rewrite /message_ok /message_of /=.
      destruct (tidy_socket _ T _ _ Hs) as [Hn _].
      split_and!; [done..| | |].
      * destruct (body_of field); [done|simpl; lia].
      * done.
      * apply trim_trimmed.
  - rewrite /after_leave /closed /left_room /=.
    destruct (rooms w !! Socket.room s) as [l|];
      [destruct (length (set_delete id l) =? 0)|];
      (split; simpl;
       [intros i s' [_ Hi]%lookup_delete_Some; by apply (tidy_socket _ T i)
       |intros i u [_ Hi]%lookup_delete_Some; by apply (tidy_user _ T i)
       |intros r h; try intros [_ Hi]%lookup_delete_Some;
        by apply (tidy_ring _ T r)]).
Qed.

Lemma room_key_has_member w r :
  consistent w → is_Some (rooms w !! r) →
  ∃ i u, i ∈ members w r ∧ users w !! i = Some u ∧ User.room u = r.
Proof.
  intros I [l Hl]. pose proof (inv_nonempty _ I _ _ Hl) as Hne.
  destruct l as [|i l]; [done|].
  destruct (inv_member _ I r (i :: l) i Hl) as (u & Hu & Hr); [by left|].
  exists i, u. rewrite /members Hl /=. split_and!; [by left|done..].
Qed.

(** X7: in every reachable state each presence record holds a username of
    1 to 50 code units without leading or trailing whitespace and a trimmed
    room, every room name in the registry is trimmed, and every entry of a
    room's user list carries such a username. *)
Theorem stored_names w :
  reachable w →
  (∀ i user, users w !! i = Some user →
     name_ok (User.username user) ∧ trimmed (User.room user))
  ∧ (∀ r, is_Some (rooms w !! r) → trimmed r)
  ∧ (∀ r, Forall (λ entry, name_ok (Entry.username entry)) (roster w r)).
Proof.
  intros Hw. pose proof (reachable_consistent _ Hw) as I.
  pose proof (reachable_tidy _ Hw) as T. split_and!.
  - apply T.
  - intros r (i & u & _ & Hu & <-)%room_key_has_member; [|done].
    by apply (tidy_user _ T i).
  - intros r. rewrite /roster. destruct (rooms w !! r) as [l|]; [|done].
    apply Forall_forall. intros e (i & _ & He)%list_elem_of_omap.
    destruct (users w !! i) as [u|] eqn:Hu; [|done].
    injection He as <-. by apply (tidy_user _ T i).
Qed.

Lemma stored_names_witness :
  Forall (λ entry, name_ok (Entry.username entry))
         (roster two_users (lit "general")).
Proof.
  apply (proj2 (proj2 (stored_names two_users two_users_reachable))).
Defined.

(** X8: in every reachable state each message in the ring of room R was
    sent in R, carries a username of 1 to 50 code units, and has a text of
    1 to 1000 code units that neither starts nor ends with whitespace; the
    ring holds at most 100 of them. *)
Theorem ring_contents w room history :
  reachable w → messageHistory w !! room = Some history →
  length history ≤ 100
  ∧ Forall (λ m, Message.room m = room
                 ∧ name_ok (Message.username m)
                 ∧ 1 ≤ length (Message.message m)
                 ∧ length (Message.message m) ≤ 1000
                 ∧ starts_ws (Message.message m) = false
                 ∧ ends_ws (Message.message m) = false) history.
Proof.
  intros Hw Hh. split.
  - by apply (inv_ring _ (reachable_consistent _ Hw) room).
  - eapply Forall_impl; [by apply (tidy_ring _ (reachable_tidy _ Hw) room)|].
    intros m (?&?&?&?&?&?). done.
Qed.

Lemma ring_contents_witness :
  length [message_of alice (JStr (lit "hi")) 20 21] ≤ 100
  ∧ Forall (λ m, Message.room m = lit "general"
                 ∧ name_ok (Message.username m)
                 ∧ 1 ≤ length (Message.message m)
                 ∧ length (Message.message m) ≤ 1000
                 ∧ starts_ws (Message.message m) = false
                 ∧ ends_ws (Message.message m) = false)
           [message_of alice (JStr (lit "hi")) 20 21].
Proof.
  apply (ring_contents said_hi (lit "general") _ said_hi_reachable).
  by vm_compute.
Defined.

(** X9: the [message_history] a new connection to room R is sent goes to
    that connection alone, is the last 50 entries of R's ring as it was
    before the join (nothing when R was not there), so at most 50
    messages, and holds only messages that were sent in R. *)
Theorem joiner_history w id auth_username auth_room now1 now2 username room :
  reachable w → sockets w !! id = None →
  admission auth_username auth_room = Accepted username room →
  ∃ w' history e2 e3,
    step w (Connect id auth_username auth_room now1 now2)
    = Some (w', [Emission (ToSocket id) {[ id ]} (message_history history);
                 e2; e3])
    ∧ history = slice_last 50 (default [] (messageHistory w !! room))
    ∧ length history ≤ 50
    ∧ history `suffix_of` default [] (messageHistory w !! room)
    ∧ Forall (λ m, Message.room m = room) history.
Proof.
  intros Hw Hfresh Hadm. pose proof (reachable_consistent _ Hw) as I.
  pose proof (step_connect_run w id _ _ now1 now2 _ _ Hfresh Hadm) as Hstep.
  eexists _, _, _, _. split; [exact Hstep|].
  assert (messageHistory
            (after_join (Socket.mk id username room) now1
               (opened (Socket.mk id username room) w)) !! room
          = Some (default [] (messageHistory w !! room))) as ->.
  { rewrite /after_join /opened /=.
    destruct (rooms w !! room) as [l|] eqn:Hl.
    - destruct (proj2 (inv_history _ I room)) as [h Hh]; [by eexists|].
      by rewrite Hh.
    - rewrite lookup_insert_eq.
      destruct (messageHistory w !! room) as [h|] eqn:Hh; [|done].
      destruct (proj1 (inv_history _ I room)) as [l' Hl']; [by eexists|].
      congruence. }
  simpl. split_and!; [done|apply length_slice_last|apply suffix_drop|].
  apply Forall_drop.
  destruct (messageHistory w !! room) as [h|] eqn:Hh; [|constructor].
  eapply Forall_impl; [by apply (tidy_ring _ (reachable_tidy _ Hw) room)|].
  by intros m [? _].
Qed.

Lemma joiner_history_witness :
  ∃ w' history e2 e3,
    step said_hi bob_joins
    = Some (w', [Emission (ToSocket (lit "s2")) {[ lit "s2" ]}
                   (message_history history); e2; e3])
    ∧ length history ≤ 50
    ∧ Forall (λ m, Message.room m = lit "general") history.
Proof.
  destruct (joiner_history said_hi (lit "s2") (JStr (lit "Bob"))
              (JStr (lit "general")) 40 41 (lit "Bob") (lit "general")
              said_hi_reachable)
    as (w' & h & e2 & e3 & Hstep & _ & Hlen & _ & Hall).
  - by vm_compute.
  - by vm_compute.
  - exists w', h, e2, e3. split_and!; [exact Hstep|exact Hlen|exact Hall].
Defined.

(** * Who is in a room *)

Lemma reachable_adapter w :
  reachable w →
  adapter_exact w ∧ (∀ i s, sockets w !! i = Some s → i ∈ in_room w i).
Proof.
  revert w. apply reachable_ind_transition.
  { split; [intros r i|intros i s]; by rewrite /init /in_room /= lookup_empty. }
  intros w e w' out Hw [A O] Htr.
  destruct Htr as
    [w id au ar n1 n2 u r Hfresh Hadm|w|w|w
    |w id s field h n1 n2 Hs Hb Hlen Hh|w|w
    |w id now s Hs]; try done.
  - split; rewrite /adapter_exact /after_join /opened /in_room /=.
    + intros r' i [[-> <-]|[[-> <-]|Hi]%elem_of_adapter_join]
        %elem_of_adapter_join.
      * eexists. rewrite lookup_insert_eq. split; [done|]. by left.
      * eexists. rewrite lookup_insert_eq. split; [done|]. by right.
      * destruct (A r' i Hi) as (s & Hs & Hr). exists s. split; [|done].
        rewrite lookup_insert_ne //. intros <-. congruence.
    + intros i s Hi. apply elem_of_adapter_join. right.
      apply elem_of_adapter_join.
      apply lookup_insert_Some in Hi as [[<- _]|[_ Hi]]; [by left|].
      right. by apply (O i s).
  - rewrite /adapter_exact /after_leave /closed /left_room /in_room /=.
    destruct (rooms w !! Socket.room s) as [l|];
      [destruct (length (set_delete id l) =? 0)|]; simpl;
      (split;
       [intros r i [Hne Hi]%elem_of_adapter_leave_all;
        destruct (A r i Hi) as (s' & Hs' & Hr); exists s';
        split; [by rewrite lookup_delete_ne|done]
       |intros i s' [Hne Hi]%lookup_delete_Some;
        apply elem_of_adapter_leave_all; split; [done|by apply (O i s')]]).
Qed.

Lemma room_recipients_of w room i :
  reachable w →
  i ∈ in_room w room
  ↔ i ∈ members w room ∨ (i = room ∧ is_Some (sockets w !! i)).
Proof.
  intros Hw. pose proof (reachable_consistent _ Hw) as I.
  destruct (reachable_adapter _ Hw) as [A O]. split.
  - intros (s & Hs & [->| ->])%A; [left|right; by eauto].
    destruct (inv_socket _ I _ _ Hs) as (_ & u & Hu & Hr & _).
    destruct (inv_user _ I _ _ Hu) as (l & Hl & Hin).
    by rewrite /members -Hr Hl.
  - intros [Hi|[-> [s Hs]]]; [by apply member_in_room|by apply (O _ s)].
Qed.

(** X10: in every reachable state the sockets a room broadcast reaches are
    exactly the members of the room, and also the connected socket whose
    own id is the room's name, if there is one: nobody else receives what
    is emitted to a room, and what is emitted to a room without a socket
    reaches the same sockets but that one. *)
Theorem room_recipients w room :
  reachable w →
  (∀ i, i ∈ resolve w (ToRoom room)
        ↔ i ∈ members w room ∨ (i = room ∧ is_Some (sockets w !! i)))
  ∧ (∀ i id, i ∈ resolve w (ToRoomExcept room id)
             ↔ i ≠ id
               ∧ (i ∈ members w room ∨ (i = room ∧ is_Some (sockets w !! i)))).
Proof.
  intros Hw. split.
  - intros i. by apply room_recipients_of.
  - intros i id. rewrite /= elem_of_difference elem_of_singleton.
    rewrite (room_recipients_of w room i Hw). tauto.
Qed.

Lemma room_recipients_witness :
  lit "s2" ∈ resolve two_users (ToRoom (lit "general"))
  ↔ lit "s2" ∈ members two_users (lit "general")
    ∨ (lit "s2" = lit "general" ∧ is_Some (sockets two_users !! lit "s2")).
Proof.
  apply (proj1 (room_recipients two_users (lit "general") two_users_reachable)).
Defined.

(** X11: in every reachable state a connected socket is a member of its own
    room and of no other, and a socket that is not connected is a member of
    no room. *)
Theorem one_room_per_socket w i room :
  reachable w →
  i ∈ members w room
  ↔ ∃ socket, sockets w !! i = Some socket ∧ Socket.room socket = room.
Proof.
  intros I%reachable_consistent. rewrite /members. split.
  - destruct (rooms w !! room) as [l|] eqn:Hl;
      [|by intros ?%not_elem_of_nil].
    simpl. intros Hi.
    destruct (inv_member _ I _ _ _ Hl Hi) as (u & Hu & Hr).
    destruct (inv_user_socket _ I _ _ Hu) as [s Hs].
    destruct (inv_socket _ I _ _ Hs) as (_ & u' & Hu' & Hr' & _).
    exists s. split; [done|]. congruence.
  - intros (s & Hs & <-).
    destruct (inv_socket _ I _ _ Hs) as (_ & u & Hu & Hr & _).
    destruct (inv_user _ I _ _ Hu) as (l & Hl & Hin).
    by rewrite -Hr Hl.
Qed.

Lemma one_room_per_socket_witness :
  lit "s2" ∈ members two_users (lit "lobby")
  ↔ ∃ socket, sockets two_users !! lit "s2" = Some socket
              ∧ Socket.room socket = lit "lobby".
Proof. apply (one_room_per_socket two_users _ _ two_users_reachable). Defined.

(** * Member counts *)

Lemma memberCount_members w room : memberCount w room = length (members w room).
Proof. rewrite /memberCount /members. by destruct (rooms w !! room). Qed.

Lemma length_set_delete id l :
  NoDup l → id ∈ l → S (length (set_delete id l)) = length l.
Proof.
  rewrite /set_delete. induction 1 as [|x l Hx Hl IH]; [by intros ?%not_elem_of_nil|].
  intros [->|Hin]%elem_of_cons.
  - rewrite filter_cons_False; [by intros H|]. simpl. f_equal.
    clear IH. induction l as [|y l IH]; [done|].
    apply not_elem_of_cons in Hx as [Hy Hx].
    apply NoDup_cons in Hl as [_ Hl].
    rewrite filter_cons_True; [by intros ->|]. simpl. f_equal. by apply IH.
  - rewrite filter_cons_True; [intros ->; done|]. simpl. f_equal. by apply IH.
Qed.

(** X12: in a reachable state a join raises the member count of its room
    by exactly one and [user_joined] carries the new count; a leave lowers
    it by exactly one and [user_left] carries the new count. *)
Theorem member_counts w :
  reachable w →
  (∀ id auth_username auth_room now1 now2 username room,
     sockets w !! id = None →
     admission auth_username auth_room = Accepted username room →
     ∃ w' e1 others e3,
       step w (Connect id auth_username auth_room now1 now2)
       = Some (w', [e1;
                    Emission (ToRoomExcept room id) others
                      (user_joined username now2 (S (memberCount w room)));
                    e3])
       ∧ memberCount w' room = S (memberCount w room))
  ∧ (∀ id now socket,
       sockets w !! id = Some socket →
       ∃ w' others e2,
         step w (Disconnect id now)
         = Some (w', [Emission (ToRoomExcept (Socket.room socket) id) others
                        (user_left (Socket.username socket) now
                           (memberCount w (Socket.room socket) - 1));
                      e2])
         ∧ S (memberCount w' (Socket.room socket))
           = memberCount w (Socket.room socket)).
Proof.
  intros Hw. pose proof (reachable_consistent _ Hw) as I. split.
  - intros id au ar now1 now2 username room Hfresh Hadm.
    pose proof (step_connect_run w id _ _ now1 now2 _ _ Hfresh Hadm) as Hstep.
    assert (memberCount
              (after_join (Socket.mk id username room) now1
                 (opened (Socket.mk id username room) w)) room
            = S (memberCount w room)) as Hcount.
    { rewrite !memberCount_members
        (members_after_join (Socket.mk id username room)) //.
      rewrite length_app /=. lia. }
    cbv zeta in Hstep. rewrite Hcount in Hstep. eexists _, _, _, _. by split.
  - intros id now socket Hs.
    destruct (step_disconnect_run w id now socket I Hs) as [Hin Hstep].
    assert (S (memberCount (after_leave id (Socket.room socket) w)
                 (Socket.room socket))
            = memberCount w (Socket.room socket)) as Hcount.
    { rewrite !memberCount_members members_after_leave.
      apply length_set_delete; [|done]. rewrite /members.
      destruct (rooms w !! Socket.room socket) as [l|] eqn:Hl;
        [by apply (inv_nodup _ I (Socket.room socket))|apply NoDup_nil_2]. }
    cbv zeta in Hstep.
    replace (memberCount (after_leave id (Socket.room socket) w)
               (Socket.room socket))
      with (memberCount w (Socket.room socket) - 1) in Hstep at 1 by lia.
    eexists _, _, _. split; [exact Hstep|exact Hcount].
Qed.

Lemma member_counts_witness :
  ∃ w' others e2,
    step two_users (Disconnect (lit "s2") 60)
    = Some (w', [Emission (ToRoomExcept (lit "general") (lit "s2")) others
                   (user_left (lit "Bob") 60
                      (memberCount two_users (lit "general") - 1));
                 e2])
    ∧ S (memberCount w' (lit "general"))
      = memberCount two_users (lit "general").
Proof.
  apply (proj2 (member_counts two_users two_users_reachable)
           (lit "s2") 60%Z bob two_users_bob).
Defined.

(** * Rooms do not interfere *)

(** X13: in a reachable state an event that does not happen in room R (it
    comes from a socket of another room, or is a connection into another
    room or a refused one) leaves R's member set, R's ring and the presence
    records of R's members as they were. *)
Theorem other_rooms_untouched w e w' out room :
  reachable w → step w e = Some (w', out) → event_room w e ≠ Some room →
  rooms w' !! room = rooms w !! room
  ∧ messageHistory w' !! room = messageHistory w !! room
  ∧ (∀ i user, users w !! i = Some user → User.room user = room →
       users w' !! i = Some user).
Proof.
  intros Hw Hstep. pose proof (reachable_consistent _ Hw) as I.
  apply step_transition in Hstep; [|done].
  destruct Hstep as
    [w id au ar n1 n2 u r Hfresh Hadm|w|w|w
    |w id s field h n1 n2 Hs Hb Hlen Hh|w|w
    |w id now s Hs]; try done.
  - rewrite /= Hadm. intros Hr.
    assert (r ≠ room) as Hne by congruence.
    rewrite /after_join /opened /=. split_and!.
    + by rewrite lookup_insert_ne.
    + destruct (rooms w !! r); [done|by rewrite lookup_insert_ne].
    + intros i user Hu _. rewrite lookup_insert_ne //. intros <-.
      destruct (inv_user_socket _ I _ _ Hu). congruence.
  - rewrite /= Hs /=. intros Hr.
    assert (Socket.room s ≠ room) as Hne by congruence.
    split_and!; [done| |done]. by rewrite /= lookup_insert_ne.
  - rewrite /= Hs /=. intros Hr.
    assert (Socket.room s ≠ room) as Hne by congruence.
    destruct (inv_socket _ I _ _ Hs) as (_ & u & Hu & Hru & _).
    rewrite /after_leave /closed /left_room /=.
    destruct (rooms w !! Socket.room s) as [l|];
      [destruct (length (set_delete id l) =? 0)|]; simpl;
      (split_and!;
       [rewrite ?lookup_delete_ne ?lookup_insert_ne //
       |rewrite ?lookup_delete_ne //
       |intros i user Hi Hroom; rewrite lookup_delete_ne //;
        intros <-; congruence]).
Qed.

Lemma bob_to_lobby :
  ∃ w' out,
    step said_hi
      (Connect (lit "s2") (JStr (lit "Bob")) (JStr (lit "lobby")) 40 41)
    = Some (w', out).
Proof.
  eexists _, _.
  by apply (step_connect_run said_hi (lit "s2") (JStr (lit "Bob"))
              (JStr (lit "lobby")) 40 41 (lit "Bob") (lit "lobby")).
Qed.

Lemma other_rooms_untouched_witness :
  ∃ w' out,
    step said_hi
      (Connect (lit "s2") (JStr (lit "Bob")) (JStr (lit "lobby")) 40 41)
    = Some (w', out)
    ∧ rooms w' !! lit "general" = rooms said_hi !! lit "general"
    ∧ messageHistory w' !! lit "general"
      = messageHistory said_hi !! lit "general".
Proof.
  destruct bob_to_lobby as (w' & out & Hstep).
  exists w', out. split; [exact Hstep|].
  destruct (other_rooms_untouched said_hi _ w' out (lit "general")
              said_hi_reachable Hstep) as (H1 & H2 & _).
  - by vm_compute.
  - split; [exact H1|exact H2].
Defined.

(** X14: in a reachable state every event a step emits is addressed to the
    socket the step is about, to the room the step happens in, or to that
    room without the socket; and whoever receives it is that socket, a
    member of that room after the step, or the socket named like the
    room. *)
Theorem events_stay_in_room w e w' out :
  reachable w → step w e = Some (w', out) →
  Forall (λ em,
            ∃ room, event_room w e = Some room
              ∧ addressed_within (event_socket e) room (em_target em)
              ∧ ∀ i, i ∈ em_recipients em →
                  i = event_socket e ∨ i ∈ members w' room ∨ i = room) out.
Proof.
  intros Hw Hstep. pose proof (reachable_consistent _ Hw) as I.
  assert (reachable w') as Hw' by (by eapply reachable_step).
  assert (∀ r i, i ∈ in_room w' r → i ∈ members w' r ∨ i = r) as Hin.
  { intros r i [?|[? _]]%(room_recipients_of w' r i Hw'); auto. }
  assert (∀ r i id, i ∈ in_room w' r ∖ {[ id ]} → i ∈ members w' r ∨ i = r)
    as Hex.
  { intros r i id [Hi _]%elem_of_difference. by apply Hin. }
  apply step_transition in Hstep; [|done].
  destruct Hstep as
    [w id au ar n1 n2 u r Hfresh Hadm|w|w|w id s data n1 n2 msg Hs
    |w id s field h n1 n2 Hs Hb Hlen Hh|w id s Hs|w id s Hs
    |w id now s Hs]; try by constructor.
  - rewrite /join_events /= Hadm.
    repeat apply Forall_cons_2; [| | |constructor];
      (exists r; split; [done|]); simpl.
    + split; [by left|]. intros i ->%elem_of_singleton. by left.
    + split; [by right; right|]. intros i Hi. right. by eapply Hex.
    + split; [by right; left|]. intros i Hi. right. by apply Hin.
  - destruct (inv_socket _ I _ _ Hs) as [Hid _].
    apply Forall_singleton. exists (Socket.room s).
    rewrite /= Hs /= Hid. split; [done|]. split; [by left|].
    intros i ->%elem_of_singleton. by left.
  - apply Forall_singleton. exists (Socket.room s).
    rewrite /= Hs /=. split; [done|]. split; [by right; left|].
    intros i Hi. right. by apply Hin.
  - destruct (inv_socket _ I _ _ Hs) as [Hid _].
    apply Forall_singleton. exists (Socket.room s).
    rewrite /= Hs /= Hid. split; [done|]. split; [by right; right|].
    intros i Hi. right. by eapply Hex.
  - destruct (inv_socket _ I _ _ Hs) as [Hid _].
    apply Forall_singleton. exists (Socket.room s).
    rewrite /= Hs /= Hid. split; [done|]. split; [by right; right|].
    intros i Hi. right. by eapply Hex.
  - rewrite /leave_events /= Hs /=.
    repeat apply Forall_cons_2; [| |constructor];
      (exists (Socket.room s); split; [done|]); simpl.
    + split; [by right; right|]. intros i Hi. right. by eapply Hex.
    + split; [by right; left|]. intros i Hi. right. by apply Hin.
Qed.

Lemma events_stay_in_room_witness :
  ∃ w' out,
    step two_users (SendMessage (lit "s1") (PValue (JStr (lit "hi"))) 50 51)
    = Some (w', out)
    ∧ Forall (λ em,
                ∃ room,
                  event_room two_users
                    (SendMessage (lit "s1") (PValue (JStr (lit "hi"))) 50 51)
                  = Some room
                  ∧ addressed_within (lit "s1") room (em_target em)
                  ∧ ∀ i, i ∈ em_recipients em →
                      i = lit "s1" ∨ i ∈ members w' room ∨ i = room) out.
Proof.
  destruct (step_send_completes two_users (lit "s1") alice
              (PValue (JStr (lit "hi"))) 50 51 two_users_alice)
    as (w' & out & Hstep).
  exists w', out. split; [exact Hstep|].
  apply (events_stay_in_room two_users _ w' out two_users_reachable Hstep).
Defined.

(** * The diagnostic endpoints *)

Lemma length_bind_sum {A B} (f : A → list B) (l : list A) :
  length (l ≫= f) = sum_list ((length ∘ f) <$> l).
Proof.
  induction l as [|x l IH]; [done|].
  by rewrite bind_cons length_app IH.
Qed.

Lemma length_le_sum (ns : list nat) :
  Forall (λ n, 1 ≤ n) ns → length ns ≤ sum_list ns.
Proof. induction 1 as [|n ns Hn _ IH]; simpl; [done|lia]. Qed.

Lemma users_same_as_sockets w :
  consistent w → size (users w) = size (sockets w).
Proof.
  intros I. rewrite -!size_dom. f_equal. apply set_eq. intros i.
  rewrite !elem_of_dom. split.
  - intros [u Hu]. by apply (inv_user_socket _ I i u).
  - intros [s Hs]. destruct (inv_socket _ I _ _ Hs) as (_ & u & Hu & _).
    by exists u.
Qed.

Lemma members_sum w :
  consistent w →
  sum_list ((length ∘ snd) <$> map_to_list (rooms w)) = size (users w).
Proof.
  intros I. rewrite -length_bind_sum -length_map_to_list.
  rewrite -(length_fmap fst (map_to_list (users w))).
  apply Permutation_length, NoDup_Permutation.
  - apply NoDup_bind; [|intros [r l] Hrl; simpl|apply NoDup_map_to_list].
    + intros [r1 l1] [r2 l2] i H1%elem_of_map_to_list H2%elem_of_map_to_list
        Hi1 Hi2. simpl in *.
      destruct (inv_member _ I _ _ _ H1 Hi1) as (u1 & Hu1 & Hr1).
      destruct (inv_member _ I _ _ _ H2 Hi2) as (u2 & Hu2 & Hr2).
      assert (r1 = r2) as -> by congruence. congruence.
    + apply elem_of_map_to_list in Hrl. by apply (inv_nodup _ I r).
  - apply NoDup_fst_map_to_list.
  - intros i. rewrite list_elem_of_bind list_elem_of_fmap. split.
    + intros ([r l] & Hi & Hrl%elem_of_map_to_list). simpl in Hi.
      destruct (inv_member _ I _ _ _ Hrl Hi) as (u & Hu & _).
      exists (i, u). split; [done|]. by apply elem_of_map_to_list.
    + intros ([i' u] & -> & Hu%elem_of_map_to_list). simpl.
      destruct (inv_user _ I _ _ Hu) as (l & Hl & Hin).
      exists (User.room u, l). split; [done|]. by apply elem_of_map_to_list.
Qed.

Lemma rooms_at_most_users w : consistent w → size (rooms w) ≤ size (users w).
Proof.
  intros I.
  assert (length ((length ∘ snd) <$> map_to_list (rooms w))
          ≤ sum_list ((length ∘ snd) <$> map_to_list (rooms w))) as H.
  { apply length_le_sum, Forall_fmap, Forall_forall.
    intros [r l] Hrl%elem_of_map_to_list. simpl.
    pose proof (inv_nonempty _ I _ _ Hrl). destruct l; [done|simpl; lia]. }
  by rewrite length_fmap length_map_to_list members_sum in H.
Qed.

(** X15: in every reachable state [/health] reports as [connections] the
    number of connected sockets, never reports more rooms than
    connections, and reports no room exactly when it reports no
    connection. *)
Theorem health_counts w now :
  reachable w →
  Health.connections (health w now) = size (sockets w)
  ∧ Health.rooms (health w now) ≤ Health.connections (health w now)
  ∧ (Health.rooms (health w now) = 0
     ↔ Health.connections (health w now) = 0).
Proof.
  intros I%reachable_consistent. rewrite /health /=.
  pose proof (rooms_at_most_users w I) as Hle.
  split_and!; [by apply users_same_as_sockets|done|].
  split; [|lia]. intros Hr%map_size_empty_inv.
  by rewrite -(members_sum w I) Hr map_to_list_empty.
Qed.

Lemma health_counts_witness :
  Health.connections (health two_users 70) = size (sockets two_users)
  ∧ Health.rooms (health two_users 70)
    ≤ Health.connections (health two_users 70).
Proof.
  destruct (health_counts two_users 70 two_users_reachable) as (H1 & H2 & _).
  split; [exact H1|exact H2].
Defined.

(** X16: in every reachable state [/stats] lists each room of the registry
    once, with its member count, which is at least 1; the list has
    [totalRooms] entries and the counts add up to [totalUsers]. *)
Theorem stats_totals w :
  reachable w →
  let details := Stats.roomDetails (stats w) in
  sum_list (RoomDetail.users <$> details) = Stats.totalUsers (stats w)
  ∧ length details = Stats.totalRooms (stats w)
  ∧ NoDup (RoomDetail.room <$> details)
  ∧ Forall (λ d, 1 ≤ RoomDetail.users d
                 ∧ RoomDetail.users d = memberCount w (RoomDetail.room d))
           details
  ∧ (∀ room, is_Some (rooms w !! room)
             ↔ ∃ d, d ∈ details ∧ RoomDetail.room d = room).
Proof.
  intros I%reachable_consistent. rewrite /stats /=. split_and!.
  - rewrite -list_fmap_compose. by apply members_sum.
  - by rewrite length_fmap length_map_to_list.
  - rewrite -list_fmap_compose. apply NoDup_fst_map_to_list.
  - apply Forall_fmap, Forall_forall.
    intros [r l] Hrl%elem_of_map_to_list. rewrite /memberCount /= Hrl.
    split; [|done].
    pose proof (inv_nonempty _ I _ _ Hrl). destruct l; [done|simpl; lia].
  - intros room. split.
    + intros [l Hl]. exists (RoomDetail.mk room (length l)). split; [|done].
      apply list_elem_of_fmap. exists (room, l). split; [done|].
      by apply elem_of_map_to_list.
    + intros (d & ([r l] & -> & Hrl%elem_of_map_to_list)%list_elem_of_fmap
              & <-). by exists l.
Qed.

Lemma stats_totals_witness :
  sum_list (RoomDetail.users <$> Stats.roomDetails (stats two_users))
  = Stats.totalUsers (stats two_users).
Proof. apply (stats_totals two_users two_users_reachable). Defined.

(** * Joining and leaving again *)

Lemma set_delete_add_fresh id l : id ∉ l → set_delete id (set_add id l) = l.
Proof.
  intros Hid. rewrite set_add_fresh // /set_delete filter_app.
  rewrite filter_cons_False; [by intros H|]. rewrite /= app_nil_r.
  induction l as [|x l IH]; [done|].
  apply not_elem_of_cons in Hid as [Hx Hid].
  rewrite filter_cons_True; [done|]. f_equal. by apply IH.
Qed.

(** X17: in a reachable state a connection that is accepted and then
    closed, with nothing in between, leaves the presence records, the
    member sets, the rings and the table of connected sockets exactly as
    they were before it came, and every room reaches the same sockets as
    before. *)
Theorem join_then_leave w id auth_username auth_room now1 now2 username room
    now :
  reachable w → sockets w !! id = None →
  admission auth_username auth_room = Accepted username room →
  ∃ w1 out1 w2 out2,
    step w (Connect id auth_username auth_room now1 now2) = Some (w1, out1)
    ∧ step w1 (Disconnect id now) = Some (w2, out2)
    ∧ users w2 = users w ∧ rooms w2 = rooms w
    ∧ messageHistory w2 = messageHistory w ∧ sockets w2 = sockets w
    ∧ ∀ r i, i ∈ in_room w2 r ↔ i ∈ in_room w r.
Proof.
  intros Hw Hfresh Hadm. pose proof (reachable_consistent _ Hw) as I.
  set (socket := Socket.mk id username room).
  pose proof (step_connect_run w id _ _ now1 now2 _ _ Hfresh Hadm) as Hstep.
  cbv zeta in Hstep. fold socket in Hstep.
  set (w1 := after_join socket now1 (opened socket w)) in *.
  assert (consistent w1) as I1 by (by eapply consistent_step).
  assert (sockets w1 !! id = Some socket) as Hs1.
  { by rewrite /w1 /after_join /opened /= lookup_insert_eq. }
  destruct (step_disconnect_run w1 id now socket I1 Hs1) as [_ Hleave].
  cbv zeta in Hleave.
  assert (users w !! id = None) as Hu.
  { destruct (users w !! id) as [u|] eqn:E; [|done].
    destruct (inv_user_socket _ I _ _ E). congruence. }
  assert (id ∉ default [] (rooms w !! room)) as Hnot.
  { destruct (rooms w !! room) as [l|] eqn:Hl; [|apply not_elem_of_nil].
    simpl. intros Hin.
    destruct (inv_member _ I _ _ _ Hl Hin) as (u & Hu' & _). congruence. }
  eexists _, _, _, _. split; [exact Hstep|]. split; [exact Hleave|].
  rewrite /after_leave /closed /left_room /w1 /after_join /opened /=.
  rewrite lookup_insert_eq set_delete_add_fresh //.
  destruct (rooms w !! room) as [l|] eqn:Hl; simpl.
  - pose proof (inv_nonempty _ I _ _ Hl).
    destruct l as [|x l]; [done|]. simpl. split_and!.
    + by rewrite delete_insert_id.
    + by rewrite insert_insert_eq insert_id.
    + done.
    + by rewrite delete_insert_id.
    + intros r i. rewrite elem_of_adapter_leave_all !elem_of_adapter_join.
      split; [intros [Hne [[? _]|[[? _]|Hi]]]; done|].
      intros Hi. split; [|auto].
      intros ->. destruct (proj1 (reachable_adapter _ Hw) r id Hi)
        as (s & Hs & _). congruence.
  - split_and!.
    + by rewrite delete_insert_id.
    + by rewrite delete_insert_id.
    + rewrite delete_insert_id //.
      destruct (messageHistory w !! room) as [h|] eqn:Hh; [|done].
      destruct (proj1 (inv_history _ I room)) as [l' Hl']; [by eexists|].
      congruence.
    + by rewrite delete_insert_id.
    + intros r i. rewrite elem_of_adapter_leave_all !elem_of_adapter_join.
      split; [intros [Hne [[? _]|[[? _]|Hi]]]; done|].
      intros Hi. split; [|auto].
      intros ->. destruct (proj1 (reachable_adapter _ Hw) r id Hi)
        as (s & Hs & _). congruence.
Qed.

Lemma join_then_leave_witness :
  ∃ w1 out1 w2 out2,
    step said_hi bob_joins = Some (w1, out1)
    ∧ step w1 (Disconnect (lit "s2") 60) = Some (w2, out2)
    ∧ users w2 = users said_hi ∧ rooms w2 = rooms said_hi
    ∧ messageHistory w2 = messageHistory said_hi.
Proof.
  destruct (join_then_leave said_hi (lit "s2") (JStr (lit "Bob"))
              (JStr (lit "general")) 40 41 (lit "Bob") (lit "general") 60
              said_hi_reachable)
    as (w1 & out1 & w2 & out2 & H1 & H2 & H3 & H4 & H5 & _).
  - by vm_compute.
  - by vm_compute.
  - exists w1, out1, w2, out2.
    split_and!; [exact H1|exact H2|exact H3|exact H4|exact H5].
Defined.

(** * Sends, joins and leaves together *)

Lemma last_slice_last_snoc {A} n (a : list A) (x : A) :
  0 < n → last (slice_last n (a ++ [x])) = Some x.
Proof.
  intros Hn. rewrite /slice_last length_app /= drop_app_le; [lia|].
  apply last_snoc.
Qed.

(** X18: in a reachable state, when a connected socket of room R makes a
    valid send and a connection is accepted into R right after it, the
    history the newcomer is sent ends with that message. *)
Theorem sent_message_reaches_joiner
    w id socket field now1 now2 j auth_username auth_room now3 now4 username :
  reachable w → sockets w !! id = Some socket →
  body_of field ≠ [] → length (body_of field) ≤ 1000 →
  sockets w !! j = None →
  admission auth_username auth_room = Accepted username (Socket.room socket) →
  ∃ w1 out1 w2 history e2 e3,
    step w (SendMessage id (PValue field) now1 now2) = Some (w1, out1)
    ∧ step w1 (Connect j auth_username auth_room now3 now4)
      = Some (w2, [Emission (ToSocket j) {[ j ]} (message_history history);
                   e2; e3])
    ∧ last history = Some (message_of socket field now1 now2).
Proof.
  intros Hw Hs Hb Hlen Hfresh Hadm.
  pose proof (reachable_consistent _ Hw) as I.
  destruct (inv_socket _ I _ _ Hs) as (_ & u & Hu & Hr & _).
  destruct (inv_user _ I _ _ Hu) as (l & Hl & _). rewrite Hr in Hl.
  destruct (proj2 (inv_history _ I (Socket.room socket))) as [h Hh];
    [by eexists|].
  set (m := message_of socket field now1 now2).
  set (w1 := set_messageHistory <[Socket.room socket := appended h m]> w).
  assert (step w (SendMessage id (PValue field) now1 now2)
          = Some (w1, [Emission (ToRoom (Socket.room socket))
                         (in_room w (Socket.room socket)) (new_message m)]))
    as Hsend.
  { by rewrite (step_send _ _ _ _ _ _ Hs) (send_message_valid _ _ _ _ _ h). }
  pose proof (step_connect_run w1 j _ _ now3 now4 _ _ Hfresh Hadm) as Hjoin.
  cbv zeta in Hjoin.
  eexists _, _, _, _, _, _. split; [exact Hsend|]. split; [exact Hjoin|].
  rewrite /after_join /opened /w1 /= Hl lookup_insert_eq /= appended_eq.
  apply last_slice_last_snoc. lia.
Qed.

Lemma sent_message_reaches_joiner_witness :
  ∃ w1 out1 w2 history e2 e3,
    step one_user (SendMessage (lit "s1") (PValue (JStr (lit "hi"))) 20 21)
    = Some (w1, out1)
    ∧ step w1 bob_joins
      = Some (w2, [Emission (ToSocket (lit "s2")) {[ lit "s2" ]}
                     (message_history history); e2; e3])
    ∧ last history = Some (message_of alice (JStr (lit "hi")) 20 21).
Proof.
  apply (sent_message_reaches_joiner one_user (lit "s1") alice (JStr (lit "hi"))
           20 21 (lit "s2") (JStr (lit "Bob")) (JStr (lit "general")) 40 41
           (lit "Bob") one_user_reachable one_user_alice).
  - by vm_compute.
  - vm_compute. lia.
  - by vm_compute.
  - by vm_compute.
Defined.

(** X19: in a reachable state the ring of a room outlives its members as
    long as one is left: a join into a room that is there leaves its ring
    as it is, and so does the leave of a socket from a room that has
    another member, after which the room is still in the registry. *)
Theorem ring_survives w :
  reachable w →
  (∀ id auth_username auth_room now1 now2 username room,
     sockets w !! id = None →
     admission auth_username auth_room = Accepted username room →
     is_Some (rooms w !! room) →
     ∃ w' out,
       step w (Connect id auth_username auth_room now1 now2) = Some (w', out)
       ∧ messageHistory w' !! room = messageHistory w !! room)
  ∧ (∀ id now socket,
       sockets w !! id = Some socket →
       2 ≤ memberCount w (Socket.room socket) →
       ∃ w' out,
         step w (Disconnect id now) = Some (w', out)
         ∧ messageHistory w' !! Socket.room socket
           = messageHistory w !! Socket.room socket
         ∧ is_Some (rooms w' !! Socket.room socket)).
Proof.
  intros Hw. pose proof (reachable_consistent _ Hw) as I. split.
  - intros id au ar now1 now2 username room Hfresh Hadm [l Hl].
    eexists _, _. split; [by apply step_connect_run|].
    by rewrite /after_join /opened /= Hl.
  - intros id now socket Hs Hcount.
    destruct (step_disconnect_run w id now socket I Hs) as [Hin Hstep].
    eexists _, _. split; [exact Hstep|].
    rewrite /members in Hin. rewrite /memberCount in Hcount.
    destruct (rooms w !! Socket.room socket) as [l|] eqn:Hl;
      [|by apply not_elem_of_nil in Hin].
    simpl in Hin.
    pose proof (length_set_delete id l (inv_nodup _ I _ _ Hl) Hin) as Hlen.
    rewrite /after_leave (left_room_more id _ l (closed id w)) //=.
    + intros Hnil. rewrite Hnil /= in Hlen. lia.
    + by rewrite lookup_insert_eq.
Qed.

Lemma ring_survives_witness :
  ∃ w' out,
    step two_users (Disconnect (lit "s1") 60) = Some (w', out)
    ∧ messageHistory w' !! lit "general"
      = messageHistory two_users !! lit "general"
    ∧ is_Some (rooms w' !! lit "general").
Proof.
  apply (proj2 (ring_survives two_users two_users_reachable)
           (lit "s1") 60%Z alice two_users_alice).
  vm_compute. lia.
Defined.

Lemma length_roster w room :
  consistent w → length (roster w room) = memberCount w room.
Proof.
  intros I. destruct (consistent_listed w room I) as [_ H].
  apply Forall2_length in H. by rewrite memberCount_members.
Qed.

(** X20: in a reachable state the user list of a room has as many entries
    as the room has members, so the count in [user_joined] or [user_left]
    is the length of the [user_list] that follows it. *)
Theorem count_matches_list w :
  reachable w →
  (∀ room, length (roster w room) = memberCount w room)
  ∧ (∀ id auth_username auth_room now1 now2 username room,
       sockets w !! id = None →
       admission auth_username auth_room = Accepted username room →
       ∃ w' e1 others count everyone userList,
         step w (Connect id auth_username auth_room now1 now2)
         = Some (w', [e1;
                      Emission (ToRoomExcept room id) others
                        (user_joined username now2 count);
                      Emission (ToRoom room) everyone (user_list userList)])
         ∧ length userList = count)
  ∧ (∀ id now socket,
       sockets w !! id = Some socket →
       ∃ w' others count everyone userList,
         step w (Disconnect id now)
         = Some (w', [Emission (ToRoomExcept (Socket.room socket) id) others
                        (user_left (Socket.username socket) now count);
                      Emission (ToRoom (Socket.room socket)) everyone
                        (user_list userList)])
         ∧ length userList = count).
Proof.
  intros Hw. pose proof (reachable_consistent _ Hw) as I. split_and!.
  - intros room. by apply length_roster.
  - intros id au ar now1 now2 username room Hfresh Hadm.
    pose proof (step_connect_run w id _ _ now1 now2 _ _ Hfresh Hadm) as Hstep.
    eexists _, _, _, _, _, _. split; [exact Hstep|].
    apply length_roster. by eapply consistent_step.
  - intros id now socket Hs.
    destruct (step_disconnect_run w id now socket I Hs) as [_ Hstep].
    eexists _, _, _, _, _. split; [exact Hstep|].
    apply length_roster. by eapply consistent_step.
Qed.

Lemma count_matches_list_witness :
  length (roster two_users (lit "general"))
  = memberCount two_users (lit "general").
Proof. apply (proj1 (count_matches_list two_users two_users_reachable)). Defined.
